(** * The IPC core of python-qt-playground: codec, counter, FD handle,
      connection and listener, embedded from [src/ipc/*.py]

    Python integers are unbounded, so they are [Z]; [bytes], [bytearray] and
    [memoryview] contents are [list byte]; a [str] is its list of code
    points; an insertion-ordered [dict] of the codec is an association list,
    the [Dict[int, Result]] of a connection is a [gmap Z]; a raised exception
    is the [Raise] branch of [result]. *)

From Stdlib Require Import ZArith Lia List Bool.
From Stdlib.Strings Require Import Byte.
From stdpp Require Import base tactics option list gmap.

Local Open Scope Z_scope.

(** ** Exceptions and the error monad *)

(** The exception classes the IPC code raises or lets escape. *)
Inductive exn : Type :=
| ValueError
| UnicodeEncodeError
| UnicodeDecodeError
| IndexError
| KeyError
| TypeError
| AttributeError
| OverflowError
| struct_error
| OSError
| RuntimeError
| NoDataError
| ClosedResourceError
| TransportError (cause : Z)
| EncoderError
| DecoderError.

Inductive result (A : Type) : Type :=
| Return (a : A)
| Raise (e : exn).
Arguments Return {A} a.
Arguments Raise {A} e.

Definition bind {A B : Type} (m : result A) (k : A -> result B) : result B :=
  match m with
  | Return a => k a
  | Raise e => Raise e
  end.

Notation "'let*' x ':=' m 'in' k" := (bind m (fun x => k))
  (at level 10, x pattern, m at level 100, k at level 200).

(** [UnicodeEncodeError] and [UnicodeDecodeError] derive from [ValueError]. *)
Definition isinstance_ValueError (e : exn) : bool :=
  match e with
  | ValueError | UnicodeEncodeError | UnicodeDecodeError => true
  | _ => false
  end.

(** ** Bytes, slices and indexing *)

Definition Z_of_byte (b : byte) : Z := Z.of_N (Byte.to_N b).

Definition byte_of_Z (z : Z) : byte :=
  match Byte.of_N (Z.to_N (z mod 256)) with
  | Some b => b
  | None => x00
  end.

(** Python's [len]. *)
Definition len {A : Type} (l : list A) : Z := Z.of_nat (length l).

(** A slice bound as Python clamps it: a negative bound counts from the end. *)
Definition clamp_index (n i : Z) : Z :=
  if i <? 0 then Z.max 0 (i + n) else Z.min i n.

(** [data[lo:hi]]; an out-of-range bound shortens the slice, it never raises. *)
Definition slice {A : Type} (lo hi : Z) (data : list A) : list A :=
  let lo' := clamp_index (len data) lo in
  let hi' := clamp_index (len data) hi in
  firstn (Z.to_nat (hi' - lo')) (skipn (Z.to_nat lo') data).

(** [data[lo:]] *)
Definition slice_from {A : Type} (lo : Z) (data : list A) : list A :=
  skipn (Z.to_nat (clamp_index (len data) lo)) data.

(** [l[i]]: [IndexError] out of range, a negative index counts from the end. *)
Definition getitem {A : Type} (l : list A) (i : Z) : result A :=
  let i' := if i <? 0 then i + len l else i in
  if i' <? 0 then Raise IndexError
  else match nth_error l (Z.to_nat i') with
       | Some a => Return a
       | None => Raise IndexError
       end.

(** The [n] low-order bytes of [z], least significant first (two's
    complement for a negative [z]). *)
Fixpoint le_bytes (n : nat) (z : Z) : list byte :=
  match n with
  | O => []
  | S n' => byte_of_Z z :: le_bytes n' (z / 256)
  end.

(** The unsigned number a little-endian byte string denotes. *)
Fixpoint le_value (bs : list byte) : Z :=
  match bs with
  | [] => 0
  | b :: bs' => Z_of_byte b + 256 * le_value bs'
  end.

(** ** src/ipc/convert.py *)
Module Convert.

(** [ipc/convert.py], which [ipc/codecs.py] imports its five conversions
    from, is not among the sources.  They are written here from the wire
    format the spec fixes (32-bit little-endian markers, lengths and
    indices, 64-bit little-endian payloads).  What the missing functions do
    with a number the width cannot hold, or with a byte string of another
    length than four or eight, is in neither the sources nor the spec: the
    stand-ins raise [struct.error] there, the error [deserialize] catches
    besides [ValueError] and [IndexError]. *)

(** Modelled from the spec: [int32_to_bytes] of the missing [ipc/convert.py];
    markers, length prefixes and FD indices are 32-bit little-endian, the
    lengths and indices unsigned. *)
Definition int32_to_bytes (v : Z) : result (list byte) :=
  if (0 <=? v) && (v <? 2 ^ 32) then Return (le_bytes 4 v)
  else Raise struct_error.

(** Modelled from the spec: [int64_to_bytes] of the missing [ipc/convert.py];
    an INT64 payload is signed 64-bit little-endian. *)
Definition int64_to_bytes (v : Z) : result (list byte) :=
  if (- 2 ^ 63 <=? v) && (v <? 2 ^ 63) then Return (le_bytes 8 v)
  else Raise struct_error.

(** Modelled from the spec: [int_from_bytes] of the missing [ipc/convert.py],
    which [_deserialize] calls on [data[0:4]] and [data[4:8]] for a marker,
    a length or an index and on [data[4:12]] for an INT64 payload.  The
    stand-in sees only the bytes it is given and goes by their number: four
    bytes are read unsigned, eight signed, any other number of bytes raises
    [struct.error].  So an INT64 marker followed by exactly four bytes
    reads those four as the number, and does not raise. *)
Definition int_from_bytes (data : list byte) : result Z :=
  match length data with
  | 4%nat => Return (le_value data)
  | 8%nat =>
      let u := le_value data in
      Return (if u <? 2 ^ 63 then u else u - 2 ^ 64)
  | _ => Raise struct_error
  end.

(** Modelled from the spec: [float_to_bytes] of the missing [ipc/convert.py];
    a DOUBLE is its IEEE-754 bit pattern, 8 bytes little-endian.  A float
    is carried as that bit pattern, a number below [2^64]. *)
Definition float_to_bytes (bits : Z) : list byte := le_bytes 8 bits.

(** Modelled from the spec: [float_from_bytes] of the missing
    [ipc/convert.py], the inverse of [float_to_bytes]. *)
Definition float_from_bytes (data : list byte) : result Z :=
  match length data with
  | 8%nat => Return (le_value data)
  | _ => Raise struct_error
  end.

End Convert.

(** ** Python's UTF-8 codec: [str.encode('utf-8')] and [str(b, encoding='utf-8')] *)
Module Utf8.

Definition is_surrogate (c : Z) : bool := (0xD800 <=? c) && (c <=? 0xDFFF).

(** The bytes of one code point; a surrogate cannot be encoded. *)
Definition encode_point (c : Z) : option (list byte) :=
  if (c <? 0) || (0x10FFFF <? c) || is_surrogate c then None
  else if c <? 0x80 then Some [byte_of_Z c]
  else if c <? 0x800 then
    Some [byte_of_Z (0xC0 + c / 64); byte_of_Z (0x80 + c mod 64)]
  else if c <? 0x10000 then
    Some [byte_of_Z (0xE0 + c / 4096); byte_of_Z (0x80 + (c / 64) mod 64);
          byte_of_Z (0x80 + c mod 64)]
  else
    Some [byte_of_Z (0xF0 + c / 262144); byte_of_Z (0x80 + (c / 4096) mod 64);
          byte_of_Z (0x80 + (c / 64) mod 64); byte_of_Z (0x80 + c mod 64)].

(** A Unicode scalar value: a code point that is not a surrogate. *)
Definition is_scalar (c : Z) : bool :=
  (0 <=? c) && (c <=? 0x10FFFF) && negb (is_surrogate c).

(** How many bytes the encoding of a string takes. *)
Definition point_size (c : Z) : Z :=
  if c <? 0x80 then 1 else if c <? 0x800 then 2 else if c <? 0x10000 then 3 else 4.

Definition size (s : list Z) : Z := fold_right (fun c n => point_size c + n) 0 s.

Fixpoint encode (s : list Z) : result (list byte) :=
  match s with
  | [] => Return []
  | c :: s' =>
      match encode_point c with
      | None => Raise UnicodeEncodeError
      | Some bs => let* rest := encode s' in Return (bs ++ rest)
      end
  end.

(** A continuation byte [10xxxxxx]. *)
Definition is_cont (x : Z) : bool := (0x80 <=? x) && (x <? 0xC0).

(** Strict decoding: overlong forms, surrogates, code points above
    [0x10FFFF], stray continuation bytes and truncated sequences are all
    rejected. *)
Fixpoint decode_points (bs : list byte) : option (list Z) :=
  match bs with
  | [] => Some []
  | b0 :: r0 =>
      let x0 := Z_of_byte b0 in
      if x0 <? 0x80 then cons x0 <$> decode_points r0
      else match r0 with
      | [] => None
      | b1 :: r1 =>
          let x1 := Z_of_byte b1 in
          if negb (is_cont x1) then None
          else if (0xC0 <=? x0) && (x0 <? 0xE0) then
            let c := (x0 - 0xC0) * 64 + (x1 - 0x80) in
            if c <? 0x80 then None else cons c <$> decode_points r1
          else match r1 with
          | [] => None
          | b2 :: r2 =>
              let x2 := Z_of_byte b2 in
              if negb (is_cont x2) then None
              else if (0xE0 <=? x0) && (x0 <? 0xF0) then
                let c := (x0 - 0xE0) * 4096 + (x1 - 0x80) * 64 + (x2 - 0x80) in
                if (c <? 0x800) || is_surrogate c then None
                else cons c <$> decode_points r2
              else match r2 with
              | [] => None
              | b3 :: r3 =>
                  let x3 := Z_of_byte b3 in
                  if negb (is_cont x3) then None
                  else if (0xF0 <=? x0) && (x0 <? 0xF8) then
                    let c := (x0 - 0xF0) * 262144 + (x1 - 0x80) * 4096
                             + (x2 - 0x80) * 64 + (x3 - 0x80) in
                    if (c <? 0x10000) || (0x10FFFF <? c) then None
                    else cons c <$> decode_points r3
                  else None
              end
          end
      end
  end.

Definition decode (bs : list byte) : result (list Z) :=
  match decode_points bs with
  | Some s => Return s
  | None => Raise UnicodeDecodeError
  end.

End Utf8.

(** ** src/ipc/types.py *)
Module Types.

Definition INT32_SIZE : Z := 4.
Definition INT64_SIZE : Z := 8.
Definition INT32_MAX : Z := 2147483647.
Definition DOUBLE_SIZE : Z := 8.

(** The kernel's side of a descriptor: the set of descriptors open in the
    process.  [os.dup] answers with the lowest descriptor not in use and
    fails with [OSError] (EBADF) on a descriptor that is not open;
    [os.close] fails the same way.  The per-process limit on open
    descriptors is left out. *)
Abbreviation fd_table := (gset Z).

Fixpoint first_unused (table : fd_table) (fuel : nat) (n : Z) : Z :=
  match fuel with
  | O => n
  | S fuel' => if decide (n ∈ table) then first_unused table fuel' (n + 1) else n
  end.

Definition lowest_unused (table : fd_table) : Z :=
  first_unused table (size table) 0.

Definition os_dup (table : fd_table) (fd : Z) : result (Z * fd_table) :=
  if decide (fd ∈ table) then
    let n := lowest_unused table in Return (n, {[n]} ∪ table)
  else Raise OSError.

Definition os_close (table : fd_table) (fd : Z) : result fd_table :=
  if decide (fd ∈ table) then Return (table ∖ {[fd]}) else Raise OSError.

(** [class Fd] *)
Record Fd : Type := mkFd {
  _value : Z;
  _auto_close : bool
}.

(** [Fd.__init__] *)
Definition __init__ (value : Z) (duplicate : bool) (table : fd_table)
  : result (Fd * fd_table) :=
  if value <? 0 then Raise ValueError
  else if duplicate then
    let* (value', table') := os_dup table value in
    Return (mkFd value' true, table')
  else Return (mkFd value true, table).

(** [Fd.owned] *)
Definition owned (self : Fd) : bool := _auto_close self.

(** [Fd.get] *)
Definition get (self : Fd) : Z := _value self.

(** [Fd.take]: the returned descriptor, the handle and the descriptor table
    afterwards. *)
Definition take (self : Fd) (table : fd_table) : result (Z * Fd * fd_table) :=
  if _auto_close self then
    Return (_value self, mkFd (_value self) false, table)
  else
    let* (n, table') := os_dup table (_value self) in
    Return (n, self, table').

(** [Fd.close] *)
Definition close (self : Fd) (table : fd_table) : result (Fd * fd_table) :=
  if _auto_close self then
    let self' := mkFd (_value self) false in
    let* table' := os_close table (_value self) in
    Return (self', table')
  else Return (self, table).

(** [Fd.__eq__] against another [Fd]. *)
Definition __eq__ (self other : Fd) : bool := _value other =? _value self.

End Types.

(** ** src/ipc/utils.py *)
Module Utils.

Record WrappedCounter : Type := mkWrappedCounter {
  start : Z;
  limit : Z;
  value : Z
}.

(** [WrappedCounter.__init__] *)
Definition __init__ (start limit : Z) : result WrappedCounter :=
  if start >=? limit then Raise ValueError
  else Return (mkWrappedCounter start limit start).

(** [WrappedCounter.next]: the returned number and the counter afterwards. *)
Definition next (self : WrappedCounter) : Z * WrappedCounter :=
  if value self >=? limit self then
    (limit self, mkWrappedCounter (start self) (limit self) (start self))
  else
    (value self, mkWrappedCounter (start self) (limit self) (value self + 1)).

(** The numbers returned by [n] successive calls of [next]. *)
Fixpoint take_next (n : nat) (self : WrappedCounter) : list Z * WrappedCounter :=
  match n with
  | O => ([], self)
  | S n' =>
      let '(x, self') := next self in
      let '(xs, self'') := take_next n' self' in
      (x :: xs, self'')
  end.

(** The invariant [__init__] establishes and [next] keeps. *)
Definition counter_ok (c : WrappedCounter) : Prop :=
  start c < limit c /\ start c <= value c <= limit c.

(** How many calls of [next] bring the counter back to where it was. *)
Definition period (c : WrappedCounter) : Z := limit c - start c + 1.

End Utils.

(** ** src/ipc/codecs.py *)
Module Codecs.
Import Types Convert.

Inductive Markers : Type :=
| FALSE | TRUE | NONE | INT64 | DOUBLE | STRING | BYTES
| ARRAY_START | ARRAY_END | DICT_START | DICT_END | FD.

Definition marker_value (m : Markers) : Z :=
  match m with
  | FALSE => 0 | TRUE => 1 | NONE => 2 | INT64 => 3 | DOUBLE => 4
  | STRING => 5 | BYTES => 6 | ARRAY_START => 7 | ARRAY_END => 8
  | DICT_START => 9 | DICT_END => 10 | FD => 11
  end.

(** [NativeType]: one constructor per member of the union.  [VBool] is a
    value whose type is [bool], [VInt] one whose type is [int], so the
    [is True] / [is False] tests that precede [isinstance(value, int)] are
    the [VBool] branch.  A [dict] lists its items in insertion order.  A
    [memoryview] is a C-contiguous view of one dimension or more:
    [length] is what [len] answers, the number of items of the first
    dimension, and [b] are the bytes of the buffer, which [buffer += value]
    appends; a view of single bytes has [length = len b], a view of wider
    items a smaller [length]. *)
#[local] Unset Elimination Schemes.
Inductive NativeType : Type :=
| VNone
| VBool (b : bool)
| VInt (n : Z)
| VFloat (bits : Z)
| VStr (s : list Z)
| VBytes (b : list byte)
| VByteArray (b : list byte)
| VMemoryview (length : Z) (b : list byte)
| VFd (fd : Fd)
| VDict (items : list (NativeType * NativeType))
| VList (items : list NativeType)
| VTuple (items : list NativeType).
#[local] Set Elimination Schemes.

(** [buffer += piece] *)
Definition put (buffer : list byte) (piece : result (list byte))
  : result (list byte) :=
  let* b := piece in Return (buffer ++ b).

(** [for item in value: _serialize(buffer, fds, item)] *)
Fixpoint serialize_each
    (rec : list byte -> list Fd -> NativeType -> result (list byte * list Fd))
    (buffer : list byte) (fds : list Fd) (items : list NativeType)
  : result (list byte * list Fd) :=
  match items with
  | [] => Return (buffer, fds)
  | item :: items' =>
      let* (buffer, fds) := rec buffer fds item in
      serialize_each rec buffer fds items'
  end.

(** [for key, value in value.items(): _serialize(.., key); _serialize(.., value)] *)
Fixpoint serialize_items
    (rec : list byte -> list Fd -> NativeType -> result (list byte * list Fd))
    (buffer : list byte) (fds : list Fd) (items : list (NativeType * NativeType))
  : result (list byte * list Fd) :=
  match items with
  | [] => Return (buffer, fds)
  | (key, value) :: items' =>
      let* (buffer, fds) := rec buffer fds key in
      let* (buffer, fds) := rec buffer fds value in
      serialize_items rec buffer fds items'
  end.

(** [_serialize]: the buffer and the FD list afterwards. *)
Fixpoint _serialize (buffer : list byte) (fds : list Fd) (value : NativeType)
    {struct value} : result (list byte * list Fd) :=
  match value with
  | VNone =>
      let* buffer := put buffer (int32_to_bytes (marker_value NONE)) in
      Return (buffer, fds)
  | VBool true =>
      let* buffer := put buffer (int32_to_bytes (marker_value TRUE)) in
      Return (buffer, fds)
  | VBool false =>
      let* buffer := put buffer (int32_to_bytes (marker_value FALSE)) in
      Return (buffer, fds)
  | VInt n =>
      let* buffer := put buffer (int32_to_bytes (marker_value INT64)) in
      let* buffer := put buffer (int64_to_bytes n) in
      Return (buffer, fds)
  | VFloat bits =>
      let* buffer := put buffer (int32_to_bytes (marker_value DOUBLE)) in
      let* buffer := put buffer (Return (float_to_bytes bits)) in
      Return (buffer, fds)
  | VStr s =>
      let* value := Utf8.encode s in
      let* buffer := put buffer (int32_to_bytes (marker_value STRING)) in
      let* buffer := put buffer (int32_to_bytes (len value)) in
      let* buffer := put buffer (Return value) in
      Return (buffer, fds)
  | VBytes value =>
      let* buffer := put buffer (int32_to_bytes (marker_value BYTES)) in
      let* buffer := put buffer (int32_to_bytes (len value)) in
      let* buffer := put buffer (Return value) in
      Return (buffer, fds)
  | VMemoryview length value =>
      let* buffer := put buffer (int32_to_bytes (marker_value BYTES)) in
      let* buffer := put buffer (int32_to_bytes length) in
      let* buffer := put buffer (Return value) in
      Return (buffer, fds)
  | VList items | VTuple items =>
      let* buffer := put buffer (int32_to_bytes (marker_value ARRAY_START)) in
      let* (buffer, fds) := serialize_each _serialize buffer fds items in
      let* buffer := put buffer (int32_to_bytes (marker_value ARRAY_END)) in
      Return (buffer, fds)
  | VDict items =>
      let* buffer := put buffer (int32_to_bytes (marker_value DICT_START)) in
      let* (buffer, fds) := serialize_items _serialize buffer fds items in
      let* buffer := put buffer (int32_to_bytes (marker_value DICT_END)) in
      Return (buffer, fds)
  | VFd fd =>
      let* buffer := put buffer (int32_to_bytes (marker_value FD)) in
      let* buffer := put buffer (int32_to_bytes (len fds)) in
      Return (buffer, fds ++ [fd])
  | VByteArray _ => Raise EncoderError
  end.

(** [serialize] *)
Definition serialize (value : NativeType) : result (list byte * list Fd) :=
  _serialize [] [] value.

(** *** Python's [dict]: hashing and [==] on keys *)

(** The fields of a binary64 bit pattern. *)
Definition float_sign (bits : Z) : Z := bits / 2 ^ 63.
Definition float_exponent (bits : Z) : Z := (bits / 2 ^ 52) mod 2 ^ 11.
Definition float_fraction (bits : Z) : Z := bits mod 2 ^ 52.

Definition float_is_nan (bits : Z) : bool :=
  (float_exponent bits =? 2047) && negb (float_fraction bits =? 0).

Definition float_is_zero (bits : Z) : bool :=
  (float_exponent bits =? 0) && (float_fraction bits =? 0).

(** [float == float]: a NaN equals nothing, the two zeros are equal. *)
Definition float_eq (a b : Z) : bool :=
  negb (float_is_nan a) && negb (float_is_nan b)
  && ((a =? b) || (float_is_zero a && float_is_zero b)).

(** [float == int], which Python decides exactly: the float is
    [(-1)^sign * m * 2^p]. *)
Definition float_eq_int (bits n : Z) : bool :=
  let e := float_exponent bits in
  if e =? 2047 then false
  else
    let m := if e =? 0 then float_fraction bits else float_fraction bits + 2 ^ 52 in
    let p := (if e =? 0 then 1 else e) - 1075 in
    let sm := if float_sign bits =? 1 then - m else m in
    if 0 <=? p then n =? sm * 2 ^ p else sm =? n * 2 ^ (- p).

(** [hash(value)] succeeds: lists, dicts and bytearrays have no hash, and
    neither has [Fd], which defines [__eq__] without [__hash__].  A
    memoryview is taken for a read-only view of bytes, which has one; the
    decoder, the only caller, makes no memoryview. *)
Fixpoint hashable (value : NativeType) : bool :=
  match value with
  | VNone | VBool _ | VInt _ | VFloat _ | VStr _ | VBytes _
  | VMemoryview _ _ => true
  | VTuple items => forallb hashable items
  | VByteArray _ | VFd _ | VDict _ | VList _ => false
  end.

#[local] Instance byte_eq_decision : EqDecision byte := byte_eq_dec.

Definition int_eq (n : Z) (other : NativeType) : bool :=
  match other with
  | VBool b => n =? Z.b2z b
  | VInt m => n =? m
  | VFloat bits => float_eq_int bits n
  | _ => false
  end.

Fixpoint all2 {A : Type} (eq : A -> A -> bool) (xs ys : list A) : bool :=
  match xs, ys with
  | [], [] => true
  | x :: xs', y :: ys' => eq x y && all2 eq xs' ys'
  | _, _ => false
  end.

(** [a == b] for two hashable values, each a distinct object (no two are the
    same object, so a NaN equals no key). *)
Fixpoint key_eq (a b : NativeType) {struct a} : bool :=
  match a with
  | VNone => match b with VNone => true | _ => false end
  | VBool x => int_eq (Z.b2z x) b
  | VInt n => int_eq n b
  | VFloat bits =>
      match b with
      | VBool y => float_eq_int bits (Z.b2z y)
      | VInt m => float_eq_int bits m
      | VFloat bits' => float_eq bits bits'
      | _ => false
      end
  | VStr s => match b with VStr t => bool_decide (s = t) | _ => false end
  | VBytes x | VMemoryview _ x =>
      match b with
      | VBytes y | VMemoryview _ y => bool_decide (x = y)
      | _ => false
      end
  | VTuple xs => match b with VTuple ys => all2 key_eq xs ys | _ => false end
  | VByteArray _ | VFd _ | VDict _ | VList _ => false
  end.

(** The dict with the value of the stored key equal to [key] replaced, if
    there is one; the stored key and its place are kept. *)
Fixpoint dict_replace (d : list (NativeType * NativeType)) (key value : NativeType)
  : option (list (NativeType * NativeType)) :=
  match d with
  | [] => None
  | (k, v) :: d' =>
      if key_eq k key then Some ((k, value) :: d')
      else cons (k, v) <$> dict_replace d' key value
  end.

(** [result[key] = value] *)
Definition dict_setitem (d : list (NativeType * NativeType)) (key value : NativeType)
  : result (list (NativeType * NativeType)) :=
  if hashable key then
    Return (default (d ++ [(key, value)]) (dict_replace d key value))
  else Raise TypeError.

(** *** Decoding *)

(** What [_deserialize] returns beside the rest of the data: a value, or the
    closing marker it has just read. *)
Inductive parsed : Type :=
| PValue (value : NativeType)
| PMarker (m : Markers).

(** The parser runs on fuel, one unit per call and per loop round; [None] is
    fuel running out.  The fuel bounds the work, not the nesting: the
    interpreter's recursion limit, a setting of the process that ends a
    descent through some thousand nested arrays or dicts with
    [RecursionError], is not part of the model, here or in [_serialize]. *)
Definition bindM {A B : Type} (m : option (result A))
    (k : A -> option (result B)) : option (result B) :=
  match m with
  | None => None
  | Some (Raise e) => Some (Raise e)
  | Some (Return a) => k a
  end.

Notation "'let?' x ':=' m 'in' k" := (bindM m (fun x => k))
  (at level 10, x pattern, m at level 100, k at level 200).

(** [_deserialize], with its two [while True] loops. *)
Fixpoint _deserialize (fuel : nat) (fds : list Fd) (data : list byte)
  : option (result (list byte * parsed)) :=
  match fuel with
  | O => None
  | S fuel' =>
      let? type_ := Some (int_from_bytes (slice 0 4 data)) in
      if type_ =? marker_value NONE then
        Some (Return (slice_from 4 data, PValue VNone))
      else if type_ =? marker_value FALSE then
        Some (Return (slice_from 4 data, PValue (VBool false)))
      else if type_ =? marker_value TRUE then
        Some (Return (slice_from 4 data, PValue (VBool true)))
      else if type_ =? marker_value FD then
        Some (let* index := int_from_bytes (slice 4 8 data) in
              let* fd := getitem fds index in
              Return (slice_from 8 data, PValue (VFd fd)))
      else if type_ =? marker_value INT64 then
        Some (let* n := int_from_bytes (slice 4 12 data) in
              Return (slice_from 12 data, PValue (VInt n)))
      else if type_ =? marker_value DOUBLE then
        Some (let* bits := float_from_bytes (slice 4 12 data) in
              Return (slice_from 12 data, PValue (VFloat bits)))
      else if type_ =? marker_value STRING then
        Some (let* n := int_from_bytes (slice 4 8 data) in
              let end_ := 8 + n in
              let* s := Utf8.decode (slice 8 end_ data) in
              Return (slice_from end_ data, PValue (VStr s)))
      else if type_ =? marker_value BYTES then
        Some (let* n := int_from_bytes (slice 4 8 data) in
              let end_ := 8 + n in
              Return (slice_from end_ data, PValue (VBytes (slice 8 end_ data))))
      else if type_ =? marker_value ARRAY_START then
        array_loop fuel' fds (slice_from 4 data) []
      else if type_ =? marker_value DICT_START then
        dict_loop fuel' fds (slice_from 4 data) []
      else if type_ =? marker_value DICT_END then
        Some (Return (slice_from 4 data, PMarker DICT_END))
      else if type_ =? marker_value ARRAY_END then
        Some (Return (slice_from 4 data, PMarker ARRAY_END))
      else Some (Raise DecoderError)
  end

with array_loop (fuel : nat) (fds : list Fd) (data : list byte)
    (result_ : list NativeType) : option (result (list byte * parsed)) :=
  match fuel with
  | O => None
  | S fuel' =>
      let? (data, value) := _deserialize fuel' fds data in
      match value with
      | PMarker ARRAY_END => Some (Return (data, PValue (VList result_)))
      | PMarker _ => Some (Raise DecoderError)
      | PValue value => array_loop fuel' fds data (result_ ++ [value])
      end
  end

with dict_loop (fuel : nat) (fds : list Fd) (data : list byte)
    (result_ : list (NativeType * NativeType))
  : option (result (list byte * parsed)) :=
  match fuel with
  | O => None
  | S fuel' =>
      let? (data, key) := _deserialize fuel' fds data in
      match key with
      | PMarker DICT_END => Some (Return (data, PValue (VDict result_)))
      | PMarker _ => Some (Raise DecoderError)
      | PValue key =>
          let? (data, value) := _deserialize fuel' fds data in
          match value with
          | PMarker _ => Some (Raise DecoderError)
          | PValue value =>
              let? result_ := Some (dict_setitem result_ key value) in
              dict_loop fuel' fds data result_
          end
      end
  end.

(** [except (ValueError, IndexError, struct.error)] *)
Definition caught (e : exn) : bool :=
  isinstance_ValueError e
  || match e with IndexError | struct_error => true | _ => false end.

(** [deserialize]; every call and loop round of the parser takes at least
    four bytes, so [S (length data)] units of fuel never run out. *)
Definition deserialize (data : list byte) (fds : list Fd)
  : option (result NativeType) :=
  match _deserialize (S (length data)) fds data with
  | None => None
  | Some (Raise e) => Some (Raise (if caught e then DecoderError else e))
  | Some (Return (end_, value)) =>
      if negb (len end_ =? 0) then Some (Raise DecoderError)
      else match value with
           | PMarker _ => Some (Raise DecoderError)
           | PValue value => Some (Return value)
           end
  end.

End Codecs.

(** ** What the claims about the codec speak of *)
Module CodecSpec.
Import Types Convert Codecs.

(** The FD handles of a value, in the order the recursive descent meets them. *)
Fixpoint fds_of (value : NativeType) : list Fd :=
  match value with
  | VFd fd => [fd]
  | VList items | VTuple items => flat_map fds_of items
  | VDict items => flat_map (fun '(key, value) => fds_of key ++ fds_of value) items
  | _ => []
  end.

(** The four bytes of a marker. *)
Definition tag (m : Markers) : list byte := le_bytes 4 (marker_value m).

(** The encoding of a value by position: the bytes of [value] when the FD
    handles met before it number [index], so that its own handles get the
    indices [index], [index + 1], ... in the order of [fds_of]. *)
Fixpoint wire_each (rec : Z -> NativeType -> result (list byte)) (index : Z)
    (items : list NativeType) : result (list byte) :=
  match items with
  | [] => Return []
  | item :: items' =>
      let* head := rec index item in
      let* rest := wire_each rec (index + len (fds_of item)) items' in
      Return (head ++ rest)
  end.

Fixpoint wire_items (rec : Z -> NativeType -> result (list byte)) (index : Z)
    (items : list (NativeType * NativeType)) : result (list byte) :=
  match items with
  | [] => Return []
  | (key, value) :: items' =>
      let* k := rec index key in
      let* v := rec (index + len (fds_of key)) value in
      let* rest :=
        wire_items rec (index + len (fds_of key) + len (fds_of value)) items' in
      Return (k ++ v ++ rest)
  end.

Fixpoint wire (index : Z) (value : NativeType) {struct value} : result (list byte) :=
  match value with
  | VNone => Return (tag NONE)
  | VBool true => Return (tag TRUE)
  | VBool false => Return (tag FALSE)
  | VInt n => let* payload := int64_to_bytes n in Return (tag INT64 ++ payload)
  | VFloat bits => Return (tag DOUBLE ++ float_to_bytes bits)
  | VStr s =>
      let* text := Utf8.encode s in
      let* length := int32_to_bytes (len text) in
      Return (tag STRING ++ length ++ text)
  | VBytes b =>
      let* length := int32_to_bytes (len b) in
      Return (tag BYTES ++ length ++ b)
  | VMemoryview length b =>
      let* length := int32_to_bytes length in
      Return (tag BYTES ++ length ++ b)
  | VList items | VTuple items =>
      let* body := wire_each wire index items in
      Return (tag ARRAY_START ++ body ++ tag ARRAY_END)
  | VDict items =>
      let* body := wire_items wire index items in
      Return (tag DICT_START ++ body ++ tag DICT_END)
  | VFd _ => let* i := int32_to_bytes index in Return (tag FD ++ i)
  | VByteArray _ => Raise EncoderError
  end.

(** What [_serialize] does, as an equation: it appends [wire (len fds) value]
    to the buffer and [fds_of value] to the FD list, or raises what [wire]
    raises. *)
Definition serialize_as_wire (value : NativeType) : Prop :=
  forall buffer fds,
    _serialize buffer fds value =
      let* w := wire (len fds) value in
      Return (buffer ++ w, fds ++ fds_of value).

(** The keys of a [dict] as Python keeps them: each one hashable and equal
    to none of those before it. *)
Fixpoint keys_distinct (seen : list NativeType)
    (items : list (NativeType * NativeType)) : bool :=
  match items with
  | [] => true
  | (key, _) :: items' =>
      hashable key && forallb (fun k => negb (key_eq k key)) seen
      && keys_distinct (seen ++ [key]) items'
  end.

(** The values that come back from the wire as they went: [None],
    booleans, integers of 64 bits, floats (any bit pattern), strings of
    Unicode scalar values, [bytes], lists and dicts of such values, and FD
    handles if [with_fds]; a string or [bytes] is shorter than [2^32] bytes
    on the wire, the limit of its length prefix.  A tuple comes back as a
    list and a memoryview as [bytes], so they are left out here; [decoded]
    and [round_trip_domain] below take them in. *)
Fixpoint encodable (with_fds : bool) (value : NativeType) : bool :=
  match value with
  | VNone | VBool _ => true
  | VInt n => (- 2 ^ 63 <=? n) && (n <? 2 ^ 63)
  | VFloat bits => (0 <=? bits) && (bits <? 2 ^ 64)
  | VStr s => forallb Utf8.is_scalar s && (Utf8.size s <? 2 ^ 32)
  | VBytes b => len b <? 2 ^ 32
  | VList items => forallb (encodable with_fds) items
  | VDict items =>
      forallb (fun '(key, value) =>
                 encodable with_fds key && encodable with_fds value) items
      && keys_distinct [] items
  | VFd _ => with_fds
  | VByteArray _ | VMemoryview _ _ | VTuple _ => false
  end.

(** The values of the round-trip law: those without FD handles. *)
Definition in_domain (value : NativeType) : bool := encodable false value.




(** The descent of [_serialize], started with [buffer] and [fds], comes to a
    [bytearray]: everything it meets before encodes. *)
Inductive reaches_bytearray : list byte -> list Fd -> NativeType -> Prop :=
| reaches_here buffer fds b :
    reaches_bytearray buffer fds (VByteArray b)
| reaches_in_list buffer fds before item after buffer' fds' :
    serialize_each _serialize (buffer ++ tag ARRAY_START) fds before
      = Return (buffer', fds') ->
    reaches_bytearray buffer' fds' item ->
    reaches_bytearray buffer fds (VList (before ++ item :: after))
| reaches_in_tuple buffer fds before item after buffer' fds' :
    serialize_each _serialize (buffer ++ tag ARRAY_START) fds before
      = Return (buffer', fds') ->
    reaches_bytearray buffer' fds' item ->
    reaches_bytearray buffer fds (VTuple (before ++ item :: after))
| reaches_in_key buffer fds before key value after buffer' fds' :
    serialize_items _serialize (buffer ++ tag DICT_START) fds before
      = Return (buffer', fds') ->
    reaches_bytearray buffer' fds' key ->
    reaches_bytearray buffer fds (VDict (before ++ (key, value) :: after))
| reaches_in_value buffer fds before key value after buffer' fds' buffer'' fds'' :
    serialize_items _serialize (buffer ++ tag DICT_START) fds before
      = Return (buffer', fds') ->
    _serialize buffer' fds' key = Return (buffer'', fds'') ->
    reaches_bytearray buffer'' fds'' value ->
    reaches_bytearray buffer fds (VDict (before ++ (key, value) :: after)).

(** [_deserialize] on [data] returns [rest] and [p]. *)
Definition parses (fds : list Fd) (data rest : list byte) (p : parsed) : Prop :=
  exists fuel, _deserialize fuel fds data = Some (Return (rest, p)).

(** [value], once on the wire, parses back to itself, the FD list holding
    its handles from [index] on. *)
Definition decodes (value : NativeType) : Prop :=
  forall index w, wire index value = Return w ->
  forall pre post rest, len pre = index ->
    parses (pre ++ fds_of value ++ post) (w ++ rest) rest (PValue value).

(** [_deserialize], started on [data], comes to a marker that is none of
    the twelve: everything before it parses.  [unknown_in_array] and
    [unknown_in_dict] say the same of the two loops. *)
Inductive unknown_marker (fds : list Fd) : list byte -> Prop :=
| unknown_here data type_ :
    int_from_bytes (slice 0 4 data) = Return type_ ->
    ~ (0 <= type_ <= 11) ->
    unknown_marker fds data
| unknown_array data :
    int_from_bytes (slice 0 4 data) = Return (marker_value ARRAY_START) ->
    unknown_in_array fds (slice_from 4 data) ->
    unknown_marker fds data
| unknown_dict data :
    int_from_bytes (slice 0 4 data) = Return (marker_value DICT_START) ->
    unknown_in_dict fds (slice_from 4 data) [] ->
    unknown_marker fds data

with unknown_in_array (fds : list Fd) : list byte -> Prop :=
| unknown_item data :
    unknown_marker fds data -> unknown_in_array fds data
| unknown_later_item data rest value :
    parses fds data rest (PValue value) ->
    unknown_in_array fds rest ->
    unknown_in_array fds data

with unknown_in_dict (fds : list Fd)
  : list byte -> list (NativeType * NativeType) -> Prop :=
| unknown_key data result_ :
    unknown_marker fds data -> unknown_in_dict fds data result_
| unknown_value data result_ rest key :
    parses fds data rest (PValue key) ->
    unknown_marker fds rest ->
    unknown_in_dict fds data result_
| unknown_later_pair data result_ rest key rest' value result' :
    parses fds data rest (PValue key) ->
    parses fds rest rest' (PValue value) ->
    dict_setitem result_ key value = Return result' ->
    unknown_in_dict fds rest' result' ->
    unknown_in_dict fds data result_.

End CodecSpec.

(** ** src/ipc/connection.py *)
Module Connection.
Import Types Utils.

(** Modelled from the spec: [Message] comes from [ipc/transport.py], which is
    not among the sources; the spec gives the framing unit as the record
    [(num, flags, payload, fds)], built positionally by the connection. *)
Record Message : Type := mkMessage {
  msg_num : Z;
  msg_flags : Z;
  msg_data : list byte;
  msg_fds : list Fd
}.

(** [class Flags] *)
Inductive Flags : Type := NONE | REQUEST | RESPONSE | NOTIFICATION.

Definition flag_value (f : Flags) : Z :=
  match f with
  | NONE => 0
  | REQUEST => Z.shiftl 1 0
  | RESPONSE => Z.shiftl 1 1
  | NOTIFICATION => Z.shiftl 1 2
  end.

(** What the [address] attribute can hold: [None], a [bytes] value, or
    another object such as the built-in type [bytes] itself. *)
Inductive pyobject : Type :=
| ObjNone
| ObjBytes (b : list byte)
| ObjBytesType.

(** A [Result] cell is known by its identity; a socket likewise. *)
Definition ResultRef : Type := nat.
Definition SocketType : Type := nat.

(** The attributes of a [Connection].  [outbox] lists, oldest first, what
    has been handed to [_outbox_sender] and not yet received by the writer;
    [results] counts the [Result] cells created so far. *)
Record Connection : Type := mkConnection {
  num : Z;
  address : pyobject;
  _socket : option SocketType;
  _error : option exn;
  _scope : bool;
  _requests : gmap Z ResultRef;
  _counter : WrappedCounter;
  _outbox_sender : bool;
  outbox : list (Message * ResultRef * bool);
  results : nat
}.

Definition set_error (e : option exn) (c : Connection) : Connection :=
  mkConnection (num c) (address c) (_socket c) e (_scope c) (_requests c)
    (_counter c) (_outbox_sender c) (outbox c) (results c).

Definition set_requests (r : gmap Z ResultRef) (c : Connection) : Connection :=
  mkConnection (num c) (address c) (_socket c) (_error c) (_scope c) r
    (_counter c) (_outbox_sender c) (outbox c) (results c).

Definition set_counter (k : WrappedCounter) (c : Connection) : Connection :=
  mkConnection (num c) (address c) (_socket c) (_error c) (_scope c) (_requests c)
    k (_outbox_sender c) (outbox c) (results c).

Definition set_outbox (o : list (Message * ResultRef * bool)) (c : Connection)
  : Connection :=
  mkConnection (num c) (address c) (_socket c) (_error c) (_scope c) (_requests c)
    (_counter c) (_outbox_sender c) o (results c).

(** [Result()] *)
Definition new_result (c : Connection) : ResultRef * Connection :=
  (results c,
   mkConnection (num c) (address c) (_socket c) (_error c) (_scope c) (_requests c)
     (_counter c) (_outbox_sender c) (outbox c) (S (results c))).

(** [Connection.__init__]: the counter is [WrappedCounter(1, INT32_MAX)]. *)
Definition __init__ (num : Z) : result Connection :=
  let* counter := Utils.__init__ 1 INT32_MAX in
  Return (mkConnection num ObjNone None None false ∅ counter false [] 0).

(** At most [rounds] rounds of a [while True] loop whose body either breaks
    with a result or goes round again; [inr] is the state after [rounds]
    rounds without a break. *)
Fixpoint loop_upto {S R : Type} (rounds : positive) (body : S -> R + S) (s : S)
  : R + S :=
  match rounds with
  | xH => body s
  | xO p =>
      match loop_upto p body s with
      | inl r => inl r
      | inr s' => loop_upto p body s'
      end
  | xI p =>
      match body s with
      | inl r => inl r
      | inr s' =>
          match loop_upto p body s' with
          | inl r => inl r
          | inr s'' => loop_upto p body s''
          end
      end
  end.

(** The same loop, round by round. *)
Fixpoint loop_rounds {S R : Type} (rounds : nat) (body : S -> R + S) (s : S)
  : R + S :=
  match rounds with
  | O => inr s
  | Datatypes.S rounds' =>
      match body s with
      | inl r => inl r
      | inr s' => loop_rounds rounds' body s'
      end
  end.

(** One round of [while True: num = next(counter); if num not in used: break]. *)
Definition next_unused_round {V : Type} (used : gmap Z V) (counter : WrappedCounter)
  : (Z * WrappedCounter) + WrappedCounter :=
  let '(num, counter') := Utils.next counter in
  match used !! num with
  | None => inl (num, counter')
  | Some _ => inr counter'
  end.

(** The loop itself.  After [period counter] rounds the counter has been
    through every number it can return, so no break by then is the Python
    loop never ending: [None]. *)
Definition next_unused {V : Type} (used : gmap Z V) (counter : WrappedCounter)
  : option (Z * WrappedCounter) :=
  match loop_upto (Z.to_pos (period counter)) (next_unused_round used) counter with
  | inl r => Some r
  | inr _ => None
  end.

(** The number a counter returns [i] calls of [next] from now. *)
Definition upcoming (counter : WrappedCounter) (i : Z) : Z :=
  start counter + (value counter - start counter + i) mod period counter.

(** [Connection._set_error] *)
Definition _set_error (self : Connection) (error : exn) : Connection * exn :=
  match _error self with
  | None => (set_error (Some error) self, error)
  | Some e => (self, e)
  end.

(** [Connection._check_not_closed] *)
Definition _check_not_closed (self : Connection) : result unit :=
  match _error self with
  | Some e => Raise e
  | None => if _outbox_sender self then Return tt else Raise ClosedResourceError
  end.

(** [fds or []] *)
Definition fds_or_empty (fds : option (list Fd)) : list Fd := default [] fds.

(** [Connection.send] up to the hand-over of the request to the outbox: the
    connection afterwards and the request number, or the exception raised.
    [None] is the numbering loop never ending. *)
Definition send (self : Connection) (data : list byte) (fds : option (list Fd))
  : option (Connection * result Z) :=
  match _check_not_closed self with
  | Raise e => Some (self, Raise e)
  | Return _ =>
      let '(result_, self) := new_result self in
      match next_unused (_requests self) (_counter self) with
      | None => None
      | Some (num, counter') =>
          let self := set_counter counter' self in
          let self := set_requests (<[num := result_]> (_requests self)) self in
          let msg := mkMessage num (flag_value REQUEST) data (fds_or_empty fds) in
          let self := set_outbox (outbox self ++ [(msg, result_, true)]) self in
          Some (self, Return num)
      end
  end.

(** The end of [Connection.send], after the response: [del self._requests[num]]. *)
Definition send_finish (self : Connection) (num : Z) : Connection :=
  set_requests (delete num (_requests self)) self.

(** [Connection.notify] up to the hand-over of the notification. *)
Definition notify (self : Connection) (data : list byte) (fds : option (list Fd))
  : Connection * result unit :=
  match _check_not_closed self with
  | Raise e => (self, Raise e)
  | Return _ =>
      let '(result_, self) := new_result self in
      let msg := mkMessage 0 (flag_value NOTIFICATION) data (fds_or_empty fds) in
      (set_outbox (outbox self ++ [(msg, result_, false)]) self, Return tt)
  end.

(** [Connection.attach] up to [task_status.started()]. *)
Definition attach (self : Connection) (socket : SocketType) (address : pyobject)
  : Connection * result unit :=
  if _scope self then (self, Raise RuntimeError)
  else
    (mkConnection (num self) address (Some socket) (_error self) true
       (_requests self) (_counter self) true [] (results self),
     Return tt).

(** The writer task taking the oldest entry of the outbox. *)
Definition receive (self : Connection) : Connection :=
  set_outbox (tail (outbox self)) self.

(** What the callers of a connection and its writer do to it, one step at
    a time: the recording of an error, [send] up to the hand-over and its
    end, [notify], [attach], the writer taking an entry.  The dispatch of a
    message read from the peer, which touches none of [_error],
    [_requests], [_counter] and [address], is a step of
    [ConnectionTasks.task]. *)
Inductive event : Type :=
| EvSetError (error : exn)
| EvSend (data : list byte) (fds : option (list Fd))
| EvSendFinish (num : Z)
| EvNotify (data : list byte) (fds : option (list Fd))
| EvAttach (socket : SocketType) (address : pyobject)
| EvReceive.

Definition step (self : Connection) (ev : event) : Connection :=
  match ev with
  | EvSetError error => fst (_set_error self error)
  | EvSend data fds =>
      match send self data fds with
      | Some (self', _) => self'
      | None => self
      end
  | EvSendFinish num => send_finish self num
  | EvNotify data fds => fst (notify self data fds)
  | EvAttach socket address => fst (attach self socket address)
  | EvReceive => receive self
  end.

Definition run (self : Connection) (evs : list event) : Connection :=
  fold_left step evs self.


End Connection.

(** ** src/ipc/server.py *)
Module Server.
Import Types Utils.

Record Server : Type := mkServer {
  address : Connection.pyobject;
  connections : gmap Z Connection.Connection;
  _counter : WrappedCounter
}.

(** [Server.__init__] *)
Definition __init__ : result Server :=
  let* counter := Utils.__init__ 1 INT32_MAX in
  Return (mkServer Connection.ObjNone ∅ counter).

(** [Server._accept] up to the point where [conn.attach] is running: the
    server afterwards and the number of the new connection. *)
Definition _accept (self : Server) (socket : Connection.SocketType)
    (address : Connection.pyobject) : option (Server * result Z) :=
  match Connection.next_unused (connections self) (_counter self) with
  | None => None
  | Some (num, counter') =>
      match Connection.__init__ num with
      | Raise e => Some (mkServer (Server.address self) (connections self) counter', Raise e)
      | Return conn =>
          let '(conn, r) := Connection.attach conn socket address in
          Some (mkServer (Server.address self) (<[num := conn]> (connections self)) counter',
                let* _ := r in Return num)
      end
  end.

(** One round of the accept loop of [Server.serve], the listening socket
    having accepted [(client_socket, address)]:
    [nursery.start_soon(self._accept, client_socket, bytes)]. *)
Definition serve_accepted (self : Server)
    (accepted : Connection.SocketType * list byte) : option (Server * result Z) :=
  let '(client_socket, address) := accepted in
  _accept self client_socket Connection.ObjBytesType.

End Server.

(** ** src/ipc/utils.py: [Result] *)
Module UtilsResult.

(** [class Result]: the two slots and whether the event is set. *)
Record Result (T : Type) : Type := mkResult {
  value : option T;
  error : option exn;
  _event : bool
}.
Arguments mkResult {T} value error _event.
Arguments value {T} r.
Arguments error {T} r.
Arguments _event {T} r.

(** [Result()] *)
Definition __init__ {T : Type} : Result T := mkResult None None false.

(** [Result.set] *)
Definition set {T : Type} (self : Result T) (value : option T) : Result T :=
  mkResult value (error self) true.

(** [Result.fail] *)
Definition fail {T : Type} (self : Result T) (error : exn) : Result T :=
  mkResult (value self) (Some error) true.

(** [Result.wait]: [None] while the event is not set and the caller stays
    suspended. *)
Definition wait {T : Type} (self : Result T) : option (result (option T)) :=
  if _event self then
    Some (match error self with
          | Some e => Raise e
          | None => Return (value self)
          end)
  else None.

(** The calls other tasks make on a cell. *)
Inductive call (T : Type) : Type :=
| CallSet (value : option T)
| CallFail (error : exn).
Arguments CallSet {T} value.
Arguments CallFail {T} error.

Definition apply_call {T : Type} (self : Result T) (c : call T) : Result T :=
  match c with
  | CallSet value => set self value
  | CallFail error => fail self error
  end.

Definition is_fail {T : Type} (c : call T) : bool :=
  match c with CallFail _ => true | CallSet _ => false end.

End UtilsResult.

(** ** src/ipc/connection.py: the writer task and the shutdown *)
Module ConnectionTasks.
Import Types Utils UtilsResult Connection.

(** What a [Result] of a connection carries: [(data, fds)]. *)
Definition payload : Type := list byte * list Fd.

(** A connection together with the [Result] cells its tasks share.  A cell
    that is not in the map is as [Result()] made it. *)
Record World : Type := mkWorld {
  conn : Connection;
  cells : gmap ResultRef (Result payload)
}.

Definition cell_of (cells : gmap ResultRef (Result payload)) (r : ResultRef)
  : Result payload :=
  default UtilsResult.__init__ (cells !! r).

(** [result.set(value)] and [result.fail(error)] on a shared cell. *)
Definition cell_set (cells : gmap ResultRef (Result payload)) (r : ResultRef)
    (value : option payload) : gmap ResultRef (Result payload) :=
  <[r := UtilsResult.set (cell_of cells r) value]> cells.

Definition cell_fail (cells : gmap ResultRef (Result payload)) (r : ResultRef)
    (error : exn) : gmap ResultRef (Result payload) :=
  <[r := UtilsResult.fail (cell_of cells r) error]> cells.

(** How [await self._transport.write(msg)] ends. *)
Inductive write_outcome : Type :=
| Written
| WriteCancelled
| WriteRaises (e : exn).

(** One round of the loop of [Connection._write_messages]: the world
    afterwards and whether the loop goes on.  With nothing in the outbox
    the writer stays suspended in [receive]. *)
Definition write_one (w : World) (outcome : write_outcome) : World * bool :=
  match outbox (conn w) with
  | [] => (w, true)
  | (msg, result_, needs_response) :: _ =>
      let self := receive (conn w) in
      match outcome with
      | Written =>
          if negb needs_response then
            (mkWorld self (cell_set (cells w) result_ None), true)
          else (mkWorld self (cells w), true)
      | WriteCancelled =>
          let '(self, error) := _set_error self ClosedResourceError in
          (mkWorld self (cell_fail (cells w) result_ error), false)
      | WriteRaises e =>
          let '(self, error) := _set_error self e in
          (mkWorld self (cell_fail (cells w) result_ error), false)
      end
  end.

(** [Connection._shutdown], and how it ends.  [_outbox_receiver] is set
    when [_outbox_sender] is, both by [attach].  [receive_nowait] is a plain
    method, not a coroutine: with nothing in the outbox it raises
    [trio.WouldBlock], the loop ends and [_shutdown] returns; with an entry
    there it takes the oldest one out and returns the tuple, and the
    [await] applied to that tuple raises [TypeError] -- before
    [result.fail(error)] is reached, and past [except trio.WouldBlock].
    The [aclose()] and [self.close()] at its end act on the channel, the
    socket and the cancel scope, of which the record holds no state. *)
Definition _shutdown (w : World) : World * result unit :=
  let '(self, error) := _set_error (conn w) ClosedResourceError in
  if _outbox_sender self then
    match outbox self with
    | [] => (mkWorld self (cells w), Return tt)
    | _ :: _ => (mkWorld (receive self) (cells w), Raise TypeError)
    end
  else (mkWorld self (cells w), Return tt).









Definition is_attach (ev : event) : bool :=
  match ev with EvAttach _ _ => true | _ => false end.

Definition is_set_error (ev : event) : bool :=
  match ev with EvSetError _ => true | _ => false end.

End ConnectionTasks.

(** ** src/ipc/server.py: the life of the accepted connections *)
Module ServerRun.
Import Types Utils Connection Server.

(** The [finally] clause of [Server._accept]: [del self.connections[num]]. *)
Definition _accept_finish (self : Server) (num : Z) : Server :=
  mkServer (Server.address self) (delete num (connections self)) (_counter self).

(** What happens to a listener: a client is accepted, the task of a
    connection ends. *)
Inductive event : Type :=
| EvAccept (socket : SocketType) (address : pyobject)
| EvFinish (num : Z).

Definition step (self : Server) (ev : event) : Server :=
  match ev with
  | EvAccept socket address =>
      match _accept self socket address with
      | Some (self', _) => self'
      | None => self
      end
  | EvFinish num => _accept_finish self num
  end.

Definition run (self : Server) (evs : list event) : Server :=
  fold_left step evs self.

End ServerRun.

(** * Properties *)

(** ** Bytes and the conversions *)
Section BytesFacts.

Lemma Z_of_byte_range (b : byte) : 0 <= Z_of_byte b < 256.
Proof.
  unfold Z_of_byte. pose proof (Byte.to_N_bounded b) as H. lia.
Qed.

Lemma Z_of_byte_of_Z (z : Z) : Z_of_byte (byte_of_Z z) = z mod 256.
Proof.
  unfold Z_of_byte, byte_of_Z.
  pose proof (Z.mod_pos_bound z 256 ltac:(lia)) as Hm.
  destruct (Byte.of_N (Z.to_N (z mod 256))) as [b|] eqn:Hb.
  - apply Byte.to_of_N in Hb. rewrite Hb. lia.
  - apply Byte.of_N_None_iff in Hb. lia.
Qed.

Lemma Z_of_byte_small (z : Z) : 0 <= z < 256 -> Z_of_byte (byte_of_Z z) = z.
Proof. intros H. rewrite Z_of_byte_of_Z. apply Z.mod_small, H. Qed.

Lemma byte_of_Z_of_byte (b : byte) : byte_of_Z (Z_of_byte b) = b.
Proof.
  unfold byte_of_Z. rewrite Z.mod_small by apply Z_of_byte_range.
  unfold Z_of_byte. rewrite N2Z.id, Byte.of_to_N. reflexivity.
Qed.

Lemma length_le_bytes (n : nat) (z : Z) : length (le_bytes n z) = n.
Proof. revert z. induction n as [|n IH]; intros z; simpl; [|rewrite IH]; reflexivity. Qed.

Lemma le_value_le_bytes (n : nat) (z : Z) :
  le_value (le_bytes n z) = z mod 256 ^ Z.of_nat n.
Proof.
  revert z. induction n as [|n IH]; intros z.
  - simpl. now rewrite Z.mod_1_r.
  - cbn [le_bytes le_value]. rewrite IH, Z_of_byte_of_Z.
    rewrite Nat2Z.inj_succ, Z.pow_succ_r by lia.
    rewrite (Z.rem_mul_r z 256 (256 ^ Z.of_nat n)) by lia. reflexivity.
Qed.

Lemma le_value_range (bs : list byte) : 0 <= le_value bs < 256 ^ len bs.
Proof.
  unfold len. induction bs as [|b bs IH]; [simpl; lia|].
  cbn [le_value length]. rewrite Nat2Z.inj_succ, Z.pow_succ_r by lia.
  pose proof (Z_of_byte_range b). lia.
Qed.

Import Convert.

Lemma int_from_bytes_u32 (v : Z) :
  0 <= v < 2 ^ 32 -> int_from_bytes (le_bytes 4 v) = Return v.
Proof.
  intros Hv. unfold int_from_bytes. rewrite length_le_bytes, le_value_le_bytes.
  change (256 ^ Z.of_nat 4) with (2 ^ 32). now rewrite Z.mod_small.
Qed.

Lemma int_from_bytes_i64 (v : Z) :
  - 2 ^ 63 <= v < 2 ^ 63 -> int_from_bytes (le_bytes 8 v) = Return v.
Proof.
  intros Hv. unfold int_from_bytes. rewrite length_le_bytes, le_value_le_bytes.
  change (256 ^ Z.of_nat 8) with (2 ^ 64). f_equal.
  destruct (Z.ltb_spec (v mod 2 ^ 64) (2 ^ 63)) as [Hlt|Hge].
  - destruct (Z.lt_ge_cases v 0) as [Hneg|Hpos].
    + rewrite <- (Z.mod_add v 1 (2 ^ 64)) in Hlt by lia.
      rewrite Z.mod_small in Hlt by lia. lia.
    + apply Z.mod_small. lia.
  - destruct (Z.lt_ge_cases v 0) as [Hneg|Hpos].
    + rewrite <- (Z.mod_add v 1 (2 ^ 64)) by lia.
      rewrite Z.mod_small by lia. lia.
    + rewrite Z.mod_small in Hge by lia. lia.
Qed.

Lemma float_from_bytes_to_bytes (bits : Z) :
  0 <= bits < 2 ^ 64 -> float_from_bytes (float_to_bytes bits) = Return bits.
Proof.
  intros Hb. unfold float_from_bytes, float_to_bytes.
  rewrite length_le_bytes, le_value_le_bytes.
  change (256 ^ Z.of_nat 8) with (2 ^ 64). now rewrite Z.mod_small.
Qed.

Lemma int32_to_bytes_ok (v : Z) :
  0 <= v < 2 ^ 32 -> int32_to_bytes v = Return (le_bytes 4 v).
Proof.
  intros Hv. unfold int32_to_bytes.
  destruct (Z.leb_spec 0 v); [|lia]. destruct (Z.ltb_spec v (2 ^ 32)); [|lia].
  reflexivity.
Qed.


(** Slices of a buffer that starts with a known piece. *)
Lemma slice_from_app {A : Type} (a rest : list A) (n : Z) :
  n = len a -> slice_from n (a ++ rest) = rest.
Proof.
  intros ->. unfold slice_from, clamp_index, len.
  rewrite length_app. destruct (Z.ltb_spec (Z.of_nat (length a)) 0); [lia|].
  rewrite Z.min_l by lia. rewrite Nat2Z.id.
  rewrite skipn_app, Nat.sub_diag, skipn_all. reflexivity.
Qed.

Lemma slice_app {A : Type} (a b rest : list A) (lo hi : Z) :
  lo = len a -> hi = len a + len b -> slice lo hi (a ++ b ++ rest) = b.
Proof.
  intros -> ->. unfold slice, clamp_index, len.
  rewrite !length_app.
  destruct (Z.ltb_spec (Z.of_nat (length a)) 0); [lia|].
  destruct (Z.ltb_spec (Z.of_nat (length a) + Z.of_nat (length b)) 0); [lia|].
  rewrite !Z.min_l by lia. rewrite Nat2Z.id.
  rewrite skipn_app, Nat.sub_diag, skipn_all. simpl.
  replace (Z.to_nat (Z.of_nat (length a) + Z.of_nat (length b) - Z.of_nat (length a)))
    with (length b) by lia.
  change (drop 0 (b ++ rest)) with (b ++ rest).
  rewrite firstn_app, Nat.sub_diag, firstn_all. simpl. apply app_nil_r.
Qed.

Lemma slice_head {A : Type} (b rest : list A) (hi : Z) :
  hi = len b -> slice 0 hi (b ++ rest) = b.
Proof. intros ->. apply (slice_app [] b rest); reflexivity. Qed.

Lemma length_slice_from {A : Type} (data : list A) (n : Z) :
  0 <= n -> length (slice_from n data) = (length data - Z.to_nat (Z.min n (len data)))%nat.
Proof.
  intros Hn. unfold slice_from, clamp_index.
  destruct (Z.ltb_spec n 0); [lia|]. now rewrite length_skipn.
Qed.

Lemma length_slice {A : Type} (data : list A) (lo hi : Z) :
  0 <= lo <= hi ->
  length (slice lo hi data)
    = Z.to_nat (Z.min hi (len data) - Z.min lo (len data)).
Proof.
  intros H. unfold slice, clamp_index.
  destruct (Z.ltb_spec lo 0); [lia|]. destruct (Z.ltb_spec hi 0); [lia|].
  rewrite length_firstn, length_skipn. unfold len. lia.
Qed.

End BytesFacts.

(** ** UTF-8: decoding undoes encoding *)
Section Utf8Facts.
Import Utf8.

Ltac euclid := Z.div_mod_to_equations; lia.

Ltac resolve_tests :=
  repeat match goal with
  | |- context [Z.ltb ?a ?b] =>
      destruct (Z.ltb_spec a b); [try (exfalso; euclid)|try (exfalso; euclid)]
  | |- context [Z.leb ?a ?b] =>
      destruct (Z.leb_spec a b); [try (exfalso; euclid)|try (exfalso; euclid)]
  end.


Lemma decode_encode_point c bs rest :
  encode_point c = Some bs ->
  decode_points (bs ++ rest) = cons c <$> decode_points rest.
Proof.
  unfold encode_point, is_surrogate.
  destruct (Z.ltb_spec c 0); [discriminate|].
  destruct (Z.ltb_spec 0x10FFFF c); [discriminate|].
  destruct (Z.leb_spec 0xD800 c); destruct (Z.leb_spec c 0xDFFF);
    simpl; try discriminate.
  all: destruct (Z.ltb_spec c 0x80);
    [|destruct (Z.ltb_spec c 0x800); [|destruct (Z.ltb_spec c 0x10000)]];
    intros Hbs; injection Hbs as <-; cbn [app decode_points];
    unfold is_cont, is_surrogate;
    repeat rewrite Z_of_byte_small by euclid;
    resolve_tests; cbn [negb andb orb];
    try (exfalso; euclid);
    match goal with
    | |- cons ?x <$> _ = _ => replace x with c by euclid
    end; reflexivity.
Qed.

Lemma decode_encode s : forall bs,
  encode s = Return bs -> decode_points bs = Some s.
Proof.
  induction s as [|c s IH]; intros bs Henc; simpl in Henc.
  - injection Henc as <-. reflexivity.
  - destruct (encode_point c) as [pre|] eqn:Hc; [|discriminate].
    destruct (encode s) as [post|]; [|discriminate]. simpl in Henc.
    injection Henc as <-.
    rewrite (decode_encode_point c pre post Hc), (IH post eq_refl). reflexivity.
Qed.


End Utf8Facts.

(** ** The wrapped counter *)
Section WrappedCounterFacts.
Import Utils.

Lemma next_returns_value c :
  counter_ok c -> fst (next c) = value c.
Proof.
  intros [_ Hv]. unfold next.
  destruct (Z.geb_spec (value c) (limit c)); simpl; lia.
Qed.

Lemma next_advances c :
  counter_ok c ->
  counter_ok (snd (next c)) /\
  start (snd (next c)) = start c /\ limit (snd (next c)) = limit c /\
  value (snd (next c)) = start c + (value c - start c + 1) mod period c.
Proof.
  intros [Hsl Hv]. unfold next, counter_ok, period.
  destruct (Z.geb_spec (value c) (limit c)); simpl.
  - assert (value c = limit c) as -> by lia.
    rewrite Z_mod_same_full. lia.
  - rewrite Z.mod_small by lia. lia.
Qed.

Lemma take_next_closed_form n : forall c k,
  counter_ok c ->
  value c = start c + Z.of_nat k mod period c ->
  fst (take_next n c) =
    map (fun i => start c + Z.of_nat i mod period c) (seq k n).
Proof.
  induction n as [|n IH]; intros c k Hok Hval; [reflexivity|].
  pose proof (next_returns_value c Hok) as Hret.
  destruct (next_advances c Hok) as (Hok' & Hs & Hl & Hv').
  simpl. destruct (next c) as [x c'] eqn:Hn. simpl in *.
  specialize (IH c' (S k) Hok').
  destruct (take_next n c') as [xs c''] eqn:Ht. simpl in *.
  assert (period c' = period c) as Hp by (unfold period; congruence).
  rewrite Hs, Hp in IH. rewrite IH.
  - now rewrite Hret, Hval.
  - rewrite Hv', Hval. f_equal.
    replace (start c + Z.of_nat k mod period c - start c + 1)
      with (Z.of_nat k mod period c + 1) by lia.
    destruct Hok as [Hsl _].
    rewrite Nat2Z.inj_succ, <- Z.add_1_r.
    rewrite (Z.add_mod (Z.of_nat k) 1) by (unfold period; lia).
    rewrite (Z.mod_small 1) by (unfold period; lia).
    reflexivity.
Qed.

Lemma take_next_from_start c n :
  counter_ok c -> value c = start c ->
  fst (take_next n c) =
    map (fun i => start c + Z.of_nat i mod period c) (seq 0 n).
Proof.
  intros Hok Hv. apply take_next_closed_form; [exact Hok|].
  rewrite Hv. simpl. rewrite Z.mod_0_l; [lia|].
  destruct Hok as [Hsl _]. unfold period. lia.
Qed.

Lemma closed_form_first_cycle (s p : Z) :
  0 < p ->
  map (fun i => s + Z.of_nat i mod p) (seq 0 (Z.to_nat p)) = seqZ s p.
Proof.
  intros Hp. unfold seqZ. apply map_ext_in. intros i Hi. apply in_seq in Hi.
  rewrite Z.mod_small by lia. lia.
Qed.

(** C2, as the code has it: [limit] is "the maximal value" of the class
    docstring, itself returned.  A counter built with [start < limit]
    returns, call after call, [start + (i mod (limit - start + 1))] for
    [i = 0, 1, 2, ...]: each integer of the closed interval [[start, limit]]
    once per cycle, in increasing order, [start] again after [limit]; and
    building one with [start >= limit] raises [ValueError]. *)
Theorem wrapped_counter_cycle (start limit : Z) :
  (start < limit ->
   exists c, Utils.__init__ start limit = Return c /\
     (forall n, fst (take_next n c) =
        map (fun i => start + Z.of_nat i mod (limit - start + 1)) (seq 0 n)) /\
     fst (take_next (Z.to_nat (limit - start + 1)) c)
       = seqZ start (limit - start + 1)) /\
  (start >= limit -> Utils.__init__ start limit = Raise ValueError).
Proof.
  split; intros H; unfold Utils.__init__.
  - destruct (Z.geb_spec start limit) as [Hge|_]; [lia|].
    eexists; split; [reflexivity|].
    set (c := mkWrappedCounter start limit start).
    assert (counter_ok c) as Hok by (unfold counter_ok; simpl; lia).
    assert (forall n, fst (take_next n c) =
        map (fun i => start + Z.of_nat i mod (limit - start + 1)) (seq 0 n)) as Hall
      by (intros n; apply (take_next_from_start c n Hok); reflexivity).
    split; [exact Hall|].
    rewrite Hall. apply closed_form_first_cycle. lia.
  - destruct (Z.geb_spec start limit) as [_|Hlt]; [reflexivity|lia].
Qed.

Lemma wrapped_counter_cycle_witness :
  exists c, Utils.__init__ 1 3 = Return c /\
    (forall n, fst (take_next n c) =
       map (fun i => 1 + Z.of_nat i mod (3 - 1 + 1)) (seq 0 n)) /\
    fst (take_next (Z.to_nat (3 - 1 + 1)) c) = seqZ 1 (3 - 1 + 1).
Proof. apply (proj1 (wrapped_counter_cycle 1 3)). lia. Defined.

(** C2 as stated fails: [WrappedCounter(0, 1)] returns 0, then 1, which is
    [limit] and so outside the half-open [[0, 1)]. *)
Lemma wrapped_counter_returns_limit :
  Utils.__init__ 0 1 = Return (mkWrappedCounter 0 1 0) /\
  fst (take_next 3 (mkWrappedCounter 0 1 0)) = [0; 1; 0] /\
  ~ (forall x, In x (fst (take_next 3 (mkWrappedCounter 0 1 0))) -> 0 <= x < 1).
Proof.
  split; [reflexivity|]. split; [reflexivity|].
  intros H. specialize (H 1). simpl in H. lia.
Qed.

End WrappedCounterFacts.

(** ** The FD handle *)
Section FdFacts.
Import Types.

Lemma first_unused_fresh (table : fd_table) (fuel : nat) (n : Z) :
  0 <= n ->
  (forall i, 0 <= i < n -> i ∈ table) ->
  Z.of_nat fuel + n = Z.of_nat (size table) ->
  first_unused table fuel n ∉ table.
Proof.
  revert n. induction fuel as [|fuel IH]; intros n Hn Hbelow Hsize; simpl.
  - assert ((list_to_set (seqZ 0 n) : gset Z) ⊆ table) as Hsub.
    { intros i Hi. apply elem_of_list_to_set, elem_of_seqZ in Hi.
      apply Hbelow. lia. }
    assert (size (list_to_set (seqZ 0 n) : gset Z) = size table) as Hsz.
    { rewrite size_list_to_set by apply NoDup_seqZ. rewrite length_seqZ. lia. }
    apply set_subseteq_size_eq in Hsub; [|lia].
    intros Hin. rewrite <- Hsub in Hin.
    apply elem_of_list_to_set, elem_of_seqZ in Hin. lia.
  - destruct (decide (n ∈ table)) as [Hin|Hout]; [|exact Hout].
    apply IH; [lia| |lia].
    intros i Hi. destruct (decide (i = n)) as [->|Hne]; [exact Hin|].
    apply Hbelow. lia.
Qed.

Lemma lowest_unused_fresh (table : fd_table) : lowest_unused table ∉ table.
Proof. apply first_unused_fresh; [lia| intros; lia | lia]. Qed.

Lemma os_dup_open (table : fd_table) (fd : Z) :
  fd ∈ table ->
  exists n, os_dup table fd = Return (n, {[n]} ∪ table) /\ n ∉ table.
Proof.
  intros Hin. unfold os_dup. destruct (decide (fd ∈ table)); [|done].
  eexists; split; [reflexivity|]. apply lowest_unused_fresh.
Qed.

(** C5, as the code has it.  On an owned handle [take] clears the flag and
    returns the stored descriptor.  On a handle that is not owned it returns
    what [os.dup] gives for the stored descriptor: while that descriptor is
    open, a descriptor that was not open before (and is afterwards), the
    handle staying as it was; once it is no longer open, [os.dup]'s
    [OSError] comes out of [take].  Whenever [take] returns, the stored
    descriptor is what it was. *)
Theorem take_owned_or_dup (self : Fd) (table : fd_table) :
  (_auto_close self = true ->
   take self table = Return (_value self, mkFd (_value self) false, table)) /\
  (_auto_close self = false -> _value self ∈ table ->
   exists n, take self table = Return (n, self, {[n]} ∪ table) /\ n ∉ table) /\
  (_auto_close self = false -> _value self ∉ table ->
   take self table = Raise OSError) /\
  (forall n self' table', take self table = Return (n, self', table') ->
   _value self' = _value self /\ _auto_close self' = false).
Proof.
  unfold take. split; [|split; [|split]].
  - intros ->. reflexivity.
  - intros -> Hin. destruct (os_dup_open table _ Hin) as (n & -> & Hn).
    exists n. split; [reflexivity|exact Hn].
  - intros -> Hout. unfold os_dup. destruct (decide (_value self ∈ table)); done.
  - intros n self' table' H.
    destruct (_auto_close self) eqn:Hown.
    + injection H as <- <- <-. split; reflexivity.
    + unfold os_dup in H. destruct (decide (_value self ∈ table)); simpl in H.
      * injection H as <- <- <-. split; [reflexivity|exact Hown].
      * discriminate H.
Qed.

Lemma take_owned_or_dup_witness :
  take (mkFd 3 true) {[0; 1; 2; 3]} = Return (3, mkFd 3 false, {[0; 1; 2; 3]}) /\
  (exists n, take (mkFd 3 false) {[0; 1; 2; 3]}
             = Return (n, mkFd 3 false, {[n]} ∪ {[0; 1; 2; 3]})
             /\ n ∉ ({[0; 1; 2; 3]} : fd_table)) /\
  take (mkFd 3 false) {[0; 1; 2]} = Raise OSError.
Proof.
  split; [|split].
  - apply (proj1 (take_owned_or_dup (mkFd 3 true) {[0; 1; 2; 3]})). reflexivity.
  - apply (proj1 (proj2 (take_owned_or_dup (mkFd 3 false) {[0; 1; 2; 3]}))).
    + reflexivity.
    + compute_done.
  - apply (proj1 (proj2 (proj2 (take_owned_or_dup (mkFd 3 false) {[0; 1; 2]})))).
    + reflexivity.
    + compute_done.
Defined.

(** C5 as stated fails: after [close()] the handle is not owned and its
    descriptor is no longer open, so the [os.dup] in [take] raises. *)
Lemma take_after_close_raises :
  close (mkFd 3 true) {[0; 1; 2; 3]} = Return (mkFd 3 false, {[0; 1; 2]}) /\
  owned (mkFd 3 false) = false /\
  take (mkFd 3 false) {[0; 1; 2]} = Raise OSError.
Proof. vm_compute. repeat split; reflexivity. Qed.

End FdFacts.

(** ** Request numbering and the sticky error of a connection *)
Section ConnectionFacts.
Import Types Utils Connection.

Lemma loop_rounds_add {S R : Type} (body : S -> R + S) (a b : nat) (s : S) :
  loop_rounds (a + b) body s =
    match loop_rounds a body s with
    | inl r => inl r
    | inr s' => loop_rounds b body s'
    end.
Proof.
  revert s. induction a as [|a IH]; intros s; simpl; [reflexivity|].
  destruct (body s); [reflexivity|apply IH].
Qed.

Lemma loop_upto_rounds {S R : Type} (body : S -> R + S) (p : positive) (s : S) :
  loop_upto p body s = loop_rounds (Pos.to_nat p) body s.
Proof.
  revert s. induction p as [p IH|p IH|]; intros s.
  - rewrite Pos2Nat.inj_xI. simpl. destruct (body s) as [r|s']; [reflexivity|].
    rewrite Nat.add_0_r, loop_rounds_add, <- !IH.
    destruct (loop_upto p body s'); [reflexivity|apply IH].
  - rewrite Pos2Nat.inj_xO. simpl.
    rewrite Nat.add_0_r, loop_rounds_add, <- !IH.
    destruct (loop_upto p body s); [reflexivity|apply IH].
  - simpl. destruct (body s); reflexivity.
Qed.

Lemma upcoming_0 c : counter_ok c -> upcoming c 0 = value c.
Proof.
  intros [Hsl Hv]. unfold upcoming, period.
  rewrite Z.add_0_r, Z.mod_small by lia. lia.
Qed.

Lemma upcoming_range c i : counter_ok c -> start c <= upcoming c i <= limit c.
Proof.
  intros [Hsl Hv]. unfold upcoming, period.
  pose proof (Z.mod_pos_bound (value c - start c + i) (limit c - start c + 1)).
  lia.
Qed.

Lemma upcoming_next c i :
  counter_ok c -> upcoming (snd (next c)) i = upcoming c (i + 1).
Proof.
  intros Hok. destruct (next_advances c Hok) as (_ & Hs & Hl & Hv).
  unfold upcoming. assert (period (snd (next c)) = period c) as ->
    by (unfold period; congruence).
  rewrite Hs, Hv. f_equal.
  replace (start c + (value c - start c + 1) mod period c - start c + i)
    with ((value c - start c + 1) mod period c + i) by lia.
  destruct Hok as [Hsl _].
  rewrite Z.add_mod_idemp_l by (unfold period; lia).
  f_equal. lia.
Qed.

Lemma upcoming_reaches c m :
  counter_ok c -> start c <= m <= limit c ->
  exists i, 0 <= i < period c /\ upcoming c i = m.
Proof.
  intros [Hsl Hv] Hm. exists ((m - value c) mod period c).
  assert (0 < period c) as Hp by (unfold period; lia).
  split; [apply Z.mod_pos_bound; exact Hp|].
  unfold upcoming. rewrite Z.add_mod_idemp_r by lia.
  replace (value c - start c + (m - value c)) with (m - start c) by lia.
  rewrite Z.mod_small by (unfold period; lia). lia.
Qed.

(** A round that breaks, and a round that goes on. *)
Lemma next_unused_round_spec {V : Type} (used : gmap Z V) c :
  counter_ok c ->
  match next_unused_round used c with
  | inl (n, c') => n = value c /\ used !! n = None /\ c' = snd (next c)
  | inr c' => is_Some (used !! value c) /\ c' = snd (next c)
  end.
Proof.
  intros Hok. unfold next_unused_round.
  pose proof (next_returns_value c Hok) as Hret.
  destruct (next c) as [x c'] eqn:Hn. simpl in *. subst x.
  destruct (used !! value c) eqn:Hu; eauto.
Qed.

Lemma loop_rounds_break {V : Type} (used : gmap Z V) (k : nat) : forall c n c',
  counter_ok c ->
  loop_rounds k (next_unused_round used) c = inl (n, c') ->
  exists j, 0 <= j < Z.of_nat k /\ n = upcoming c j /\ used !! n = None /\
    (forall i, 0 <= i < j -> is_Some (used !! upcoming c i)) /\
    counter_ok c' /\ start c' = start c /\ limit c' = limit c.
Proof.
  induction k as [|k IH]; intros c n c' Hok Hrun; simpl in Hrun; [discriminate|].
  pose proof (next_unused_round_spec used c Hok) as Hround.
  destruct (next_advances c Hok) as (Hok1 & Hs1 & Hl1 & _).
  destruct (next_unused_round used c) as [[n0 c0]|c1]; simpl in Hround.
  - assert (n0 = n /\ c0 = c') as [-> ->] by (split; congruence).
    destruct Hround as (Hn & Hfree & Hc'). subst n c'.
    exists 0. rewrite upcoming_0 by exact Hok.
    split; [lia|]. split; [reflexivity|]. split; [exact Hfree|].
    split; [intros i Hi; lia|]. auto.
  - destruct Hround as (Hused & Hc1). subst c1.
    destruct (IH _ _ _ Hok1 Hrun) as (j & Hj & Hn & Hfree & Hbefore & Hok' & Hs' & Hl').
    exists (j + 1). rewrite upcoming_next in Hn by exact Hok.
    split; [lia|]. split; [exact Hn|]. split; [exact Hfree|].
    split; [|split; [exact Hok'|split; congruence]].
    intros i Hi. destruct (decide (i = 0)) as [->|Hne].
    + rewrite upcoming_0 by exact Hok. exact Hused.
    + specialize (Hbefore (i - 1) ltac:(lia)).
      rewrite upcoming_next in Hbefore by exact Hok.
      replace (i - 1 + 1) with i in Hbefore by lia. exact Hbefore.
Qed.

Lemma loop_rounds_no_break {V : Type} (used : gmap Z V) (k : nat) : forall c c',
  counter_ok c ->
  loop_rounds k (next_unused_round used) c = inr c' ->
  forall i, 0 <= i < Z.of_nat k -> is_Some (used !! upcoming c i).
Proof.
  induction k as [|k IH]; intros c c' Hok Hrun i Hi; simpl in Hrun; [lia|].
  pose proof (next_unused_round_spec used c Hok) as Hround.
  destruct (next_advances c Hok) as (Hok1 & _).
  destruct (next_unused_round used c) as [[n0 c0]|c1]; [discriminate|].
  simpl in Hround. destruct Hround as (Hused & Hc1). subst c1.
  destruct (decide (i = 0)) as [->|Hne].
  - rewrite upcoming_0 by exact Hok. exact Hused.
  - specialize (IH _ _ Hok1 Hrun (i - 1) ltac:(lia)).
    rewrite upcoming_next in IH by exact Hok.
    replace (i - 1 + 1) with i in IH by lia. exact IH.
Qed.

Lemma period_rounds c : counter_ok c -> Z.of_nat (Pos.to_nat (Z.to_pos (period c))) = period c.
Proof.
  intros [Hsl _]. rewrite positive_nat_Z, Z2Pos.id; [reflexivity|].
  unfold period; lia.
Qed.

(** The numbering loop returns the first upcoming number that is not in use. *)
Lemma next_unused_sound {V : Type} (used : gmap Z V) c n c' :
  counter_ok c ->
  next_unused used c = Some (n, c') ->
  exists j, 0 <= j < period c /\ n = upcoming c j /\ used !! n = None /\
    (forall i, 0 <= i < j -> is_Some (used !! upcoming c i)) /\
    counter_ok c' /\ start c' = start c /\ limit c' = limit c.
Proof.
  intros Hok Hrun. unfold next_unused in Hrun. rewrite loop_upto_rounds in Hrun.
  destruct (loop_rounds _ _ c) as [[n0 c0]|] eqn:Hloop; [|discriminate].
  assert (n0 = n /\ c0 = c') as [-> ->] by (split; congruence).
  apply loop_rounds_break in Hloop; [|exact Hok].
  rewrite period_rounds in Hloop by exact Hok. exact Hloop.
Qed.

(** It ends as soon as one number of the range is free. *)
Lemma next_unused_total {V : Type} (used : gmap Z V) c m :
  counter_ok c -> start c <= m <= limit c -> used !! m = None ->
  exists n c', next_unused used c = Some (n, c').
Proof.
  intros Hok Hm Hfree. unfold next_unused. rewrite loop_upto_rounds.
  destruct (loop_rounds _ _ c) as [[n0 c0]|c1] eqn:Hloop; [eauto|].
  destruct (upcoming_reaches c m Hok Hm) as (i & Hi & Hup).
  pose proof (loop_rounds_no_break used _ c c1 Hok Hloop i) as Hused.
  rewrite period_rounds in Hused by exact Hok.
  specialize (Hused Hi). rewrite Hup, Hfree in Hused.
  destruct Hused; discriminate.
Qed.





Lemma error_raised_first c e :
  _error c = Some e -> _check_not_closed c = Raise e.
Proof. intros H. unfold _check_not_closed. now rewrite H. Qed.

Lemma step_keeps_error c ev e : _error c = Some e -> _error (step c ev) = Some e.
Proof.
  intros He. pose proof (error_raised_first c e He) as Hcheck.
  destruct ev; simpl.
  - unfold _set_error. now rewrite He.
  - unfold send. now rewrite Hcheck.
  - exact He.
  - unfold notify. now rewrite Hcheck.
  - unfold attach. destruct (_scope c); exact He.
  - exact He.
Qed.

Lemma run_keeps_error evs : forall c e,
  _error c = Some e -> _error (run c evs) = Some e.
Proof.
  induction evs as [|ev evs IH]; intros c e He; [exact He|].
  apply IH, step_keeps_error, He.
Qed.

(** C3: sticky error.  Let [first] be the error [_set_error] records on a
    connection that has none.  Whatever the tasks of the connection do
    afterwards -- record further errors, send, notify, attach, take
    messages from the outbox -- the recorded error stays [first]; [send]
    and [notify] raise [first] and leave the connection, its outbox
    included, as it was; and [_set_error] with a later error answers
    [first]. *)
Theorem sticky_error (c : Connection) (first : exn) (evs : list event)
    (data : list byte) (fds : option (list Fd)) :
  _error c = None ->
  let c' := run (fst (_set_error c first)) evs in
  _error c' = Some first /\
  send c' data fds = Some (c', Raise first) /\
  notify c' data fds = (c', Raise first) /\
  (forall later, _set_error c' later = (c', first)).
Proof.
  intros Hnone c'.
  assert (_error c' = Some first) as He.
  { apply run_keeps_error. unfold _set_error. now rewrite Hnone. }
  pose proof (error_raised_first c' first He) as Hcheck.
  split; [exact He|].
  unfold send, notify, _set_error. rewrite Hcheck, He. auto.
Qed.

Lemma sticky_error_witness :
  let c := mkConnection 0 ObjNone (Some 3%nat) None true ∅
             (mkWrappedCounter 1 INT32_MAX 1) true [] 0 in
  let evs := [EvSend [] None; EvSetError ClosedResourceError; EvReceive] in
  let c' := run (fst (_set_error c (TransportError 5))) evs in
  _error c' = Some (TransportError 5) /\
  send c' [] None = Some (c', Raise (TransportError 5)) /\
  notify c' [] None = (c', Raise (TransportError 5)) /\
  (forall later, _set_error c' later = (c', TransportError 5)).
Proof.
  intros c evs.
  apply (sticky_error c (TransportError 5) evs [] None). reflexivity.
Defined.



End ConnectionFacts.

(** ** The listener and the address of an accepted peer *)
Section ServerFacts.
Import Types Utils Connection Server.

(** C4 fails on the code: whatever address [accept] returned, the
    connection the listener attaches gets the type object [bytes] as its
    [address]. *)
Theorem accepted_address_is_type_object :
  exists server server' conn,
    Server.__init__ = Return server /\
    serve_accepted server (7%nat, [x00; x63]) = Some (server', Return 1) /\
    connections server' !! 1 = Some conn /\
    Connection.address conn = ObjBytesType /\
    Connection.address conn <> ObjBytes [x00; x63].
Proof.
  eexists _, _, _. split; [reflexivity|]. split; [reflexivity|].
  split; [reflexivity|]. split; [reflexivity|discriminate].
Qed.

End ServerFacts.

(** ** The encoder *)
Section EncoderFacts.
Import Types Convert Codecs CodecSpec.

(** Induction on a value, with the hypothesis for every item of a list,
    tuple or dict. *)
Lemma NativeType_nested_ind (P : NativeType -> Prop) :
  P VNone ->
  (forall b, P (VBool b)) ->
  (forall n, P (VInt n)) ->
  (forall bits, P (VFloat bits)) ->
  (forall s, P (VStr s)) ->
  (forall b, P (VBytes b)) ->
  (forall b, P (VByteArray b)) ->
  (forall length b, P (VMemoryview length b)) ->
  (forall fd, P (VFd fd)) ->
  (forall items, Forall (fun kv => P kv.1 /\ P kv.2) items -> P (VDict items)) ->
  (forall items, Forall P items -> P (VList items)) ->
  (forall items, Forall P items -> P (VTuple items)) ->
  forall value, P value.
Proof.
  intros HNone HBool HInt HFloat HStr HBytes HByteArray HMemoryview HFd
    HDict HList HTuple.
  fix IH 1. intros [ |b|n|bits|s|b|b|l b|fd|items|items|items].
  - exact HNone.
  - apply HBool.
  - apply HInt.
  - apply HFloat.
  - apply HStr.
  - apply HBytes.
  - apply HByteArray.
  - apply HMemoryview.
  - apply HFd.
  - apply HDict. induction items as [|[k v] items IHitems]; constructor.
    + split; apply IH.
    + exact IHitems.
  - apply HList. induction items as [|x items IHitems]; constructor.
    + apply IH.
    + exact IHitems.
  - apply HTuple. induction items as [|x items IHitems]; constructor.
    + apply IH.
    + exact IHitems.
Qed.

Lemma tag_ok (m : Markers) : int32_to_bytes (marker_value m) = Return (tag m).
Proof. destruct m; reflexivity. Qed.

Lemma put_tag (buffer : list byte) (m : Markers) :
  put buffer (int32_to_bytes (marker_value m)) = Return (buffer ++ tag m).
Proof. unfold put. now rewrite tag_ok. Qed.

Lemma len_app {A : Type} (a b : list A) : len (a ++ b) = len a + len b.
Proof. unfold len. rewrite length_app. lia. Qed.

Lemma serialize_each_wire (items : list NativeType) :
  Forall serialize_as_wire items ->
  forall buffer fds,
    serialize_each _serialize buffer fds items =
      let* w := wire_each wire (len fds) items in
      Return (buffer ++ w, fds ++ flat_map fds_of items).
Proof.
  induction 1 as [|item items Hitem _ IH]; intros buffer fds; simpl.
  - now rewrite !app_nil_r.
  - rewrite Hitem. destruct (wire (len fds) item) as [w|e]; [|reflexivity].
    simpl. rewrite IH, len_app.
    destruct (wire_each wire (len fds + len (fds_of item)) items) as [ws|e];
      [|reflexivity].
    simpl. now rewrite !app_assoc.
Qed.

Lemma serialize_items_wire (items : list (NativeType * NativeType)) :
  Forall (fun kv => serialize_as_wire kv.1 /\ serialize_as_wire kv.2) items ->
  forall buffer fds,
    serialize_items _serialize buffer fds items =
      let* w := wire_items wire (len fds) items in
      Return (buffer ++ w,
              fds ++ flat_map (fun '(key, value) => fds_of key ++ fds_of value) items).
Proof.
  induction 1 as [|[key value] items [Hkey Hvalue] _ IH]; intros buffer fds; simpl.
  - now rewrite !app_nil_r.
  - simpl in Hkey, Hvalue. rewrite Hkey.
    destruct (wire (len fds) key) as [k|e]; [|reflexivity].
    simpl. rewrite Hvalue, len_app.
    destruct (wire (len fds + len (fds_of key)) value) as [v|e]; [|reflexivity].
    simpl. rewrite IH, !len_app.
    destruct (wire_items wire _ items) as [ws|e]; [|reflexivity].
    simpl. now rewrite !app_assoc.
Qed.

Lemma put_return (buffer piece : list byte) :
  put buffer (Return piece) = Return (buffer ++ piece).
Proof. reflexivity. Qed.

Ltac put_steps :=
  repeat first [rewrite put_tag | rewrite put_return | progress cbn [bind]].

Ltac put_done := put_steps; rewrite ?app_nil_r, <- ?app_assoc; reflexivity.

Lemma serialize_wire (value : NativeType) : serialize_as_wire value.
Proof.
  induction value as [ |b|n|bits|s|b|b|l b|fd|items IH|items IH|items IH]
    using NativeType_nested_ind; intros buffer fds; cbn [_serialize wire fds_of].
  - put_done.
  - destruct b; put_done.
  - put_steps. destruct (int64_to_bytes n); [put_done|reflexivity].
  - put_done.
  - destruct (Utf8.encode s) as [text|e]; [|reflexivity]. put_steps.
    destruct (int32_to_bytes (len text)); [put_done|reflexivity].
  - put_steps. destruct (int32_to_bytes (len b)); [put_done|reflexivity].
  - reflexivity.
  - put_steps. destruct (int32_to_bytes l); [put_done|reflexivity].
  - put_steps. destruct (int32_to_bytes (len fds)); [put_done|reflexivity].
  - put_steps. rewrite (serialize_items_wire items IH).
    destruct (wire_items wire (len fds) items); [put_done|reflexivity].
  - put_steps. rewrite (serialize_each_wire items IH).
    destruct (wire_each wire (len fds) items); [put_done|reflexivity].
  - put_steps. rewrite (serialize_each_wire items IH).
    destruct (wire_each wire (len fds) items); [put_done|reflexivity].
Qed.

Lemma serialize_each_app rec buffer fds (before after : list NativeType) :
  serialize_each rec buffer fds (before ++ after) =
    let* (buffer', fds') := serialize_each rec buffer fds before in
    serialize_each rec buffer' fds' after.
Proof.
  revert buffer fds. induction before as [|x before IH]; intros buffer fds; simpl;
    [reflexivity|].
  destruct (rec buffer fds x) as [[b f]|e]; simpl; [apply IH|reflexivity].
Qed.

Lemma serialize_items_app rec buffer fds
    (before after : list (NativeType * NativeType)) :
  serialize_items rec buffer fds (before ++ after) =
    let* (buffer', fds') := serialize_items rec buffer fds before in
    serialize_items rec buffer' fds' after.
Proof.
  revert buffer fds.
  induction before as [|[k v] before IH]; intros buffer fds; simpl; [reflexivity|].
  destruct (rec buffer fds k) as [[b f]|e]; simpl; [|reflexivity].
  destruct (rec b f v) as [[b' f']|e]; simpl; [apply IH|reflexivity].
Qed.

(** C10: [_serialize] raises [EncoderError] on a [bytearray], wherever the
    descent comes to it: at the top, or inside lists, tuples and dicts
    whose earlier items it has got through.  So does [serialize]. *)
Theorem bytearray_rejected (buffer : list byte) (fds : list Fd) (value : NativeType) :
  reaches_bytearray buffer fds value ->
  _serialize buffer fds value = Raise EncoderError /\
  (buffer = [] -> fds = [] -> serialize value = Raise EncoderError).
Proof.
  intros Hreach.
  assert (_serialize buffer fds value = Raise EncoderError) as Hraise.
  { induction Hreach as
      [buffer fds b
      |buffer fds before item after buffer' fds' Hbefore _ IH
      |buffer fds before item after buffer' fds' Hbefore _ IH
      |buffer fds before key value after buffer' fds' Hbefore _ IH
      |buffer fds before key value after buffer' fds' buffer'' fds''
         Hbefore Hkey _ IH];
      cbn [_serialize]; try reflexivity; rewrite put_tag; simpl.
    - rewrite serialize_each_app, Hbefore. simpl. now rewrite IH.
    - rewrite serialize_each_app, Hbefore. simpl. now rewrite IH.
    - rewrite serialize_items_app, Hbefore. simpl. now rewrite IH.
    - rewrite serialize_items_app, Hbefore. simpl. rewrite Hkey. simpl.
      now rewrite IH. }
  split; [exact Hraise|]. intros -> ->. exact Hraise.
Qed.

Lemma bytearray_rejected_witness :
  _serialize [] []
    (VList [VInt 1; VDict [(VStr [107], VTuple [VNone; VByteArray [x01]])]])
    = Raise EncoderError /\
  serialize (VList [VInt 1; VDict [(VStr [107], VTuple [VNone; VByteArray [x01]])]])
    = Raise EncoderError.
Proof.
  destruct (bytearray_rejected [] []
    (VList [VInt 1; VDict [(VStr [107], VTuple [VNone; VByteArray [x01]])]]))
    as [H1 H2].
  - apply (reaches_in_list [] [] [VInt 1] _ []) with (1 := eq_refl).
    apply (reaches_in_value _ _ [] (VStr [107]) _ [])
      with (1 := eq_refl) (2 := eq_refl).
    apply (reaches_in_tuple _ _ [VNone] _ []) with (1 := eq_refl).
    apply reaches_here.
  - split; [exact H1|apply H2; reflexivity].
Defined.

End EncoderFacts.

(** ** The decoder: fuel and termination *)
Section DecoderFuel.
Import Types Convert Codecs CodecSpec.

(** Destructs the tests of the dispatch on [type_], in goal and hypotheses
    alike. *)
Ltac split_dispatch :=
  repeat match goal with
  | H : context [if ?c then _ else _] |- _ => destruct c eqn:?
  | |- context [if ?c then _ else _] => destruct c eqn:?
  end.

Lemma fuel_mono (fuel : nat) :
  (forall fds data r fuel', (fuel <= fuel')%nat ->
     _deserialize fuel fds data = Some r -> _deserialize fuel' fds data = Some r) /\
  (forall fds data acc r fuel', (fuel <= fuel')%nat ->
     array_loop fuel fds data acc = Some r -> array_loop fuel' fds data acc = Some r) /\
  (forall fds data acc r fuel', (fuel <= fuel')%nat ->
     dict_loop fuel fds data acc = Some r -> dict_loop fuel' fds data acc = Some r).
Proof.
  induction fuel as [|fuel (IHv & IHa & IHd)];
    [repeat split; intros; simpl in *; discriminate|].
  split; [|split].
  - intros fds data r [|fuel'] Hle H; [lia|].
    cbn [_deserialize bindM] in H |- *.
    destruct (int_from_bytes (slice 0 4 data)) as [type_|e]; [|exact H].
    split_dispatch; try exact H.
    + apply IHa; [lia|exact H].
    + apply IHd; [lia|exact H].
  - intros fds data acc r [|fuel'] Hle H; [lia|].
    cbn [array_loop bindM] in H |- *.
    destruct (_deserialize fuel fds data) as [[[rest p]|e]|] eqn:Hv;
      [| |discriminate];
      rewrite (IHv _ _ _ fuel' ltac:(lia) Hv); [|exact H].
    destruct p as [value|[]]; try exact H.
    apply IHa; [lia|exact H].
  - intros fds data acc r [|fuel'] Hle H; [lia|].
    cbn [dict_loop bindM] in H |- *.
    destruct (_deserialize fuel fds data) as [[[rest p]|e]|] eqn:Hk;
      [| |discriminate];
      rewrite (IHv _ _ _ fuel' ltac:(lia) Hk); [|exact H].
    destruct p as [key|[]]; try exact H.
    cbn [bindM] in H |- *.
    destruct (_deserialize fuel fds rest) as [[[rest' p']|e]|] eqn:Hv;
      [| |discriminate];
      rewrite (IHv _ _ _ fuel' ltac:(lia) Hv); [|exact H].
    destruct p' as [value|m]; [|exact H].
    cbn [bindM] in H |- *.
    destruct (dict_setitem acc key value) as [acc'|e]; [|exact H].
    apply IHd; [lia|exact H].
Qed.

(** Every call of the parser that returns has taken at least four bytes. *)

Lemma int_from_bytes_length bs n :
  int_from_bytes bs = Return n -> length bs = 4%nat \/ length bs = 8%nat.
Proof.
  unfold int_from_bytes. intros H.
  destruct (length bs) as [|[|[|[|[|[|[|[|[|k]]]]]]]]]; try discriminate; auto.
Qed.

Lemma float_from_bytes_length bs n :
  float_from_bytes bs = Return n -> length bs = 8%nat.
Proof.
  unfold float_from_bytes. intros H.
  destruct (length bs) as [|[|[|[|[|[|[|[|[|k]]]]]]]]]; try discriminate; auto.
Qed.

Lemma int_from_bytes_u32_range bs n :
  int_from_bytes bs = Return n -> length bs = 4%nat -> 0 <= n.
Proof.
  unfold int_from_bytes. intros H Hl. rewrite Hl in H. injection H as <-.
  apply le_value_range.
Qed.

(** A successful read of [data[lo:hi]] needs the bytes up to [lo + 4]. *)
Lemma read_needs (data : list byte) (lo hi n : Z) :
  0 <= lo <= hi ->
  int_from_bytes (slice lo hi data) = Return n -> lo + 4 <= len data.
Proof.
  intros Hb H. apply int_from_bytes_length in H.
  rewrite length_slice in H by exact Hb. unfold len in *. lia.
Qed.

Lemma read_float_needs (data : list byte) (lo hi n : Z) :
  0 <= lo <= hi ->
  float_from_bytes (slice lo hi data) = Return n -> lo + 8 <= len data.
Proof.
  intros Hb H. apply float_from_bytes_length in H.
  rewrite length_slice in H by exact Hb. unfold len in *. lia.
Qed.

Lemma len_slice_from (data : list byte) (n : Z) :
  0 <= n -> len (slice_from n data) = len data - Z.min n (len data).
Proof.
  intros Hn. unfold len. rewrite length_slice_from by exact Hn. unfold len. lia.
Qed.

Lemma consumes (fuel : nat) :
  (forall fds data rest p,
     _deserialize fuel fds data = Some (Return (rest, p)) ->
     len rest + 4 <= len data) /\
  (forall fds data acc rest p,
     array_loop fuel fds data acc = Some (Return (rest, p)) ->
     len rest + 4 <= len data) /\
  (forall fds data acc rest p,
     dict_loop fuel fds data acc = Some (Return (rest, p)) ->
     len rest + 4 <= len data).
Proof.
  induction fuel as [|fuel (IHv & IHa & IHd)];
    [repeat split; intros; simpl in *; discriminate|].
  split; [|split].
  - intros fds data rest p H. cbn [_deserialize bindM] in H.
    destruct (int_from_bytes (slice 0 4 data)) as [type_|e] eqn:Htype;
      [|discriminate].
    apply read_needs in Htype; [|lia].
    split_dispatch.
    all: try discriminate.
    all: try (injection H as <- <-; rewrite len_slice_from by lia; lia).
    + destruct (int_from_bytes (slice 4 8 data)) as [index|e] eqn:Hi;
        [|discriminate].
      apply read_needs in Hi; [|lia]. cbn [bind] in H.
      destruct (getitem fds index); [|discriminate]. injection H as <- <-.
      rewrite len_slice_from by lia. lia.
    + destruct (int_from_bytes (slice 4 12 data)) as [n|e] eqn:Hn; [|discriminate].
      apply read_needs in Hn; [|lia]. injection H as <- <-.
      rewrite len_slice_from by lia. lia.
    + destruct (float_from_bytes (slice 4 12 data)) as [n|e] eqn:Hn; [|discriminate].
      apply read_float_needs in Hn; [|lia]. injection H as <- <-.
      rewrite len_slice_from by lia. lia.
    + destruct (int_from_bytes (slice 4 8 data)) as [n|e] eqn:Hn; [|discriminate].
      pose proof (int_from_bytes_length _ _ Hn) as Hlen.
      assert (0 <= n) as Hpos.
      { apply (int_from_bytes_u32_range _ _ Hn).
        rewrite length_slice in Hlen |- * by lia. unfold len in *. lia. }
      apply read_needs in Hn; [|lia]. cbn [bind] in H.
      destruct (Utf8.decode (slice 8 (8 + n) data)); [|discriminate].
      injection H as <- <-. rewrite len_slice_from by lia. lia.
    + destruct (int_from_bytes (slice 4 8 data)) as [n|e] eqn:Hn; [|discriminate].
      pose proof (int_from_bytes_length _ _ Hn) as Hlen.
      assert (0 <= n) as Hpos.
      { apply (int_from_bytes_u32_range _ _ Hn).
        rewrite length_slice in Hlen |- * by lia. unfold len in *. lia. }
      apply read_needs in Hn; [|lia]. injection H as <- <-.
      rewrite len_slice_from by lia. lia.
    + apply IHa in H. rewrite len_slice_from in H by lia. lia.
    + apply IHd in H. rewrite len_slice_from in H by lia. lia.
  - intros fds data acc rest p H. cbn [array_loop bindM] in H.
    destruct (_deserialize fuel fds data) as [[[rest1 p1]|e]|] eqn:Hv;
      [|discriminate|discriminate].
    apply IHv in Hv. destruct p1 as [value|[]]; try discriminate.
    + apply IHa in H. lia.
    + injection H as <- <-. lia.
  - intros fds data acc rest p H. cbn [dict_loop bindM] in H.
    destruct (_deserialize fuel fds data) as [[[rest1 p1]|e]|] eqn:Hk;
      [|discriminate|discriminate].
    apply IHv in Hk. destruct p1 as [key|[]]; try discriminate.
    + cbn [bindM] in H.
      destruct (_deserialize fuel fds rest1) as [[[rest2 p2]|e]|] eqn:Hv;
        [|discriminate|discriminate].
      apply IHv in Hv. destruct p2 as [value|m]; [|discriminate].
      cbn [bindM] in H.
      destruct (dict_setitem acc key value) as [acc'|e]; [|discriminate].
      apply IHd in H. lia.
    + injection H as <- <-. lia.
Qed.


Lemma enough_fuel (fuel : nat) :
  (forall fds data, len data < Z.of_nat fuel ->
     _deserialize fuel fds data <> None) /\
  (forall fds data acc, len data + 1 < Z.of_nat fuel ->
     array_loop fuel fds data acc <> None) /\
  (forall fds data acc, len data + 1 < Z.of_nat fuel ->
     dict_loop fuel fds data acc <> None).
Proof.
  induction fuel as [|fuel (IHv & IHa & IHd)].
  { unfold len. repeat split; intros; lia. }
  split; [|split].
  - intros fds data Hfuel. cbn [_deserialize bindM].
    destruct (int_from_bytes (slice 0 4 data)) as [type_|e] eqn:Htype;
      [|discriminate].
    apply read_needs in Htype; [|lia].
    split_dispatch; try discriminate.
    + apply IHa. rewrite len_slice_from by lia. lia.
    + apply IHd. rewrite len_slice_from by lia. lia.
  - intros fds data acc Hfuel. cbn [array_loop bindM].
    pose proof (IHv fds data ltac:(lia)) as Hsome.
    destruct (_deserialize fuel fds data) as [[[rest p]|e]|] eqn:Hv;
      [|discriminate|congruence].
    apply (proj1 (consumes fuel)) in Hv.
    destruct p as [value|[]]; try discriminate.
    apply IHa. lia.
  - intros fds data acc Hfuel. cbn [dict_loop bindM].
    pose proof (IHv fds data ltac:(lia)) as Hsome.
    destruct (_deserialize fuel fds data) as [[[rest p]|e]|] eqn:Hk;
      [|discriminate|congruence].
    apply (proj1 (consumes fuel)) in Hk.
    destruct p as [key|[]]; try discriminate.
    cbn [bindM].
    pose proof (IHv fds rest ltac:(lia)) as Hsome'.
    destruct (_deserialize fuel fds rest) as [[[rest' p']|e]|] eqn:Hv;
      [|discriminate|congruence].
    apply (proj1 (consumes fuel)) in Hv.
    destruct p' as [value|m]; [|discriminate].
    cbn [bindM]. destruct (dict_setitem acc key value); [|discriminate].
    apply IHd. lia.
Qed.

(** The parser never runs out of the fuel [deserialize] gives it. *)
Lemma deserialize_total (data : list byte) (fds : list Fd) :
  exists r, deserialize data fds = Some r.
Proof.
  unfold deserialize.
  pose proof (proj1 (enough_fuel (S (length data))) fds data) as Hsome.
  destruct (_deserialize (S (length data)) fds data) as [[[end_ value]|e]|];
    [| |exfalso; apply Hsome; [unfold len; lia|reflexivity]].
  - destruct (negb (len end_ =? 0)); [eauto|]. destruct value; eauto.
  - eauto.
Qed.

(** What the parser returns on some fuel is what it returns on the fuel of
    [deserialize]. *)
Lemma parse_with_any_fuel fuel fds data r :
  _deserialize fuel fds data = Some r ->
  _deserialize (S (length data)) fds data = Some r.
Proof.
  intros H.
  pose proof (proj1 (enough_fuel (S (length data))) fds data) as Hsome.
  destruct (_deserialize (S (length data)) fds data) as [r'|] eqn:Hr';
    [|exfalso; apply Hsome; [unfold len; lia|reflexivity]].
  pose proof (proj1 (fuel_mono _) _ _ _ (Nat.max fuel (S (length data)))
                (Nat.le_max_l _ _) H) as H1.
  pose proof (proj1 (fuel_mono _) _ _ _ (Nat.max fuel (S (length data)))
                (Nat.le_max_r _ _) Hr') as H2.
  congruence.
Qed.

End DecoderFuel.

(** ** The decoder undoes the encoder *)
Section RoundTrip.
Import Types Convert Codecs CodecSpec.

Lemma len_tag (m : Markers) : len (tag m) = 4.
Proof. unfold len, tag. now rewrite length_le_bytes. Qed.

Lemma read_tag (m : Markers) (rest : list byte) :
  int_from_bytes (slice 0 4 (tag m ++ rest)) = Return (marker_value m).
Proof.
  rewrite slice_head by (now rewrite len_tag).
  apply int_from_bytes_u32. destruct m; simpl; lia.
Qed.

Lemma int32_to_bytes_inv v bs :
  int32_to_bytes v = Return bs -> bs = le_bytes 4 v /\ 0 <= v < 2 ^ 32.
Proof.
  unfold int32_to_bytes.
  destruct (Z.leb_spec 0 v); destruct (Z.ltb_spec v (2 ^ 32)); simpl;
    intros Hbs; try discriminate.
  injection Hbs as <-. split; [reflexivity|lia].
Qed.

Lemma int64_to_bytes_inv v bs :
  int64_to_bytes v = Return bs -> bs = le_bytes 8 v /\ - 2 ^ 63 <= v < 2 ^ 63.
Proof.
  unfold int64_to_bytes.
  destruct (Z.leb_spec (- 2 ^ 63) v); destruct (Z.ltb_spec v (2 ^ 63)); simpl;
    intros Hbs; try discriminate.
  injection Hbs as <-. split; [reflexivity|lia].
Qed.

Lemma getitem_middle {A : Type} (pre post : list A) (x : A) :
  getitem (pre ++ x :: post) (len pre) = Return x.
Proof.
  unfold getitem, len.
  assert ((Z.of_nat (length pre) <? 0) = false) as Hneg by (apply Z.ltb_ge; lia).
  rewrite !Hneg.
  rewrite Nat2Z.id, nth_error_app2, Nat.sub_diag by lia. reflexivity.
Qed.

(** The dispatch of [_deserialize] on data that starts with a known marker. *)
Ltac dispatch :=
  cbn [_deserialize bindM]; rewrite read_tag;
  cbn [bindM marker_value Z.eqb Pos.eqb].

Lemma parse_closing fuel fds (rest : list byte) :
  _deserialize (S fuel) fds (tag ARRAY_END ++ rest)
    = Some (Return (rest, PMarker ARRAY_END)) /\
  _deserialize (S fuel) fds (tag DICT_END ++ rest)
    = Some (Return (rest, PMarker DICT_END)).
Proof.
  split; dispatch; (rewrite slice_from_app by (now rewrite len_tag)); reflexivity.
Qed.

Lemma array_loop_decodes (with_fds : bool) (items : list NativeType) :
  Forall (fun x => forall b, encodable b x = true -> decodes x) items ->
  forallb (encodable with_fds) items = true ->
  forall index body, wire_each wire index items = Return body ->
  forall pre post rest acc, len pre = index ->
  exists fuel,
    array_loop fuel (pre ++ flat_map fds_of items ++ post)
      (body ++ tag ARRAY_END ++ rest) acc
    = Some (Return (rest, PValue (VList (acc ++ items)))).
Proof.
  induction 1 as [|item items Hitem _ IH];
    intros Hdom index body Hwire pre post rest acc Hpre.
  - injection Hwire as <-. exists 2%nat. cbn [array_loop bindM app].
    rewrite (proj1 (parse_closing _ _ _)). cbn [bindM].
    now rewrite app_nil_r.
  - cbn [forallb] in Hdom. apply andb_prop in Hdom as [Hdom1 Hdom2].
    cbn [wire_each] in Hwire.
    destruct (wire index item) as [head|e] eqn:Hhead; [|discriminate].
    cbn [bind] in Hwire.
    destruct (wire_each wire (index + len (fds_of item)) items) as [tail|e]
      eqn:Htail; [|discriminate].
    injection Hwire as <-.
    destruct (Hitem _ Hdom1 index head Hhead pre
                (flat_map fds_of items ++ post)
                (tail ++ tag ARRAY_END ++ rest) Hpre) as [fuel1 H1].
    destruct (IH Hdom2 _ tail Htail (pre ++ fds_of item) post rest (acc ++ [item]))
      as [fuel2 H2]; [rewrite len_app; lia|].
    exists (S (Nat.max fuel1 fuel2)). cbn [array_loop flat_map].
    rewrite <- !app_assoc in *.
    rewrite (proj1 (fuel_mono _) _ _ _ _ (Nat.le_max_l fuel1 fuel2) H1).
    cbn [bindM].
    rewrite (proj1 (proj2 (fuel_mono _)) _ _ _ _ _ (Nat.le_max_r fuel1 fuel2) H2).
    reflexivity.
Qed.

Lemma dict_replace_absent d key value :
  forallb (fun k => negb (key_eq k key)) (map fst d) = true ->
  dict_replace d key value = None.
Proof.
  induction d as [|[k v] d IH]; intros H; [reflexivity|].
  cbn [map forallb fst] in H. apply andb_prop in H as [Hk Hd].
  cbn [dict_replace]. apply negb_true_iff in Hk. rewrite Hk, (IH Hd). reflexivity.
Qed.

Lemma dict_loop_decodes (with_fds : bool) (items : list (NativeType * NativeType)) :
  Forall (fun kv => (forall b, encodable b kv.1 = true -> decodes kv.1) /\
                    (forall b, encodable b kv.2 = true -> decodes kv.2)) items ->
  forallb (fun '(key, value) =>
             encodable with_fds key && encodable with_fds value) items = true ->
  forall index body, wire_items wire index items = Return body ->
  forall pre post rest acc, len pre = index ->
  keys_distinct (map fst acc) items = true ->
  exists fuel,
    dict_loop fuel
      (pre ++ flat_map (fun '(key, value) => fds_of key ++ fds_of value) items ++ post)
      (body ++ tag DICT_END ++ rest) acc
    = Some (Return (rest, PValue (VDict (acc ++ items)))).
Proof.
  induction 1 as [|[key value] items [Hkey Hvalue] _ IH];
    intros Hdom index body Hwire pre post rest acc Hpre Hkeys.
  - injection Hwire as <-. exists 2%nat. cbn [dict_loop bindM app].
    rewrite (proj2 (parse_closing _ _ _)). cbn [bindM].
    now rewrite app_nil_r.
  - cbn [forallb] in Hdom. apply andb_prop in Hdom as [Hdom1 Hdom2].
    apply andb_prop in Hdom1 as [Hdomk Hdomv].
    cbn [keys_distinct] in Hkeys. apply andb_prop in Hkeys as [Hkeys Hrest].
    apply andb_prop in Hkeys as [Hhash Hnew].
    cbn [wire_items] in Hwire. cbn [fst snd] in Hkey, Hvalue.
    destruct (wire index key) as [k|e] eqn:Hk; [|discriminate].
    cbn [bind] in Hwire.
    destruct (wire (index + len (fds_of key)) value) as [v|e] eqn:Hv;
      [|discriminate].
    cbn [bind] in Hwire.
    destruct (wire_items wire _ items) as [tail|e] eqn:Htail; [|discriminate].
    injection Hwire as <-.
    set (more := flat_map (fun '(key, value) => fds_of key ++ fds_of value) items).
    destruct (Hkey _ Hdomk index k Hk pre (fds_of value ++ more ++ post)
                (v ++ tail ++ tag DICT_END ++ rest) Hpre) as [fuel1 H1].
    destruct (Hvalue _ Hdomv _ v Hv (pre ++ fds_of key) (more ++ post)
                (tail ++ tag DICT_END ++ rest)) as [fuel2 H2];
      [rewrite len_app; lia|].
    destruct (IH Hdom2 _ tail Htail ((pre ++ fds_of key) ++ fds_of value) post rest
                (acc ++ [(key, value)])) as [fuel3 H3];
      [rewrite !len_app; lia|rewrite map_app; exact Hrest|].
    set (fuel := Nat.max fuel1 (Nat.max fuel2 fuel3)).
    assert (fuel1 <= fuel)%nat as Hle1 by lia.
    assert (fuel2 <= fuel)%nat as Hle2 by lia.
    assert (fuel3 <= fuel)%nat as Hle3 by lia.
    exists (S fuel). cbn [dict_loop flat_map]. fold more.
    rewrite <- !app_assoc in *.
    rewrite (proj1 (fuel_mono _) _ _ _ _ Hle1 H1). cbn [bindM].
    rewrite (proj1 (fuel_mono _) _ _ _ _ Hle2 H2). cbn [bindM].
    unfold dict_setitem.
    rewrite Hhash, (dict_replace_absent _ _ _ Hnew). cbn [default bindM].
    apply (proj2 (proj2 (fuel_mono _)) _ _ _ _ _ Hle3). exact H3.
Qed.


Lemma slice_from_app2 {A : Type} (a b rest : list A) (n : Z) :
  n = len a + len b -> slice_from n (a ++ b ++ rest) = rest.
Proof.
  intros ->. rewrite app_assoc. apply slice_from_app. now rewrite len_app.
Qed.

Lemma slice_app2 {A : Type} (a b c rest : list A) (lo hi : Z) :
  lo = len a + len b -> hi = len a + len b + len c ->
  slice lo hi (a ++ b ++ c ++ rest) = c.
Proof.
  intros -> ->. rewrite app_assoc. apply slice_app; rewrite len_app; reflexivity.
Qed.

Lemma len_le_bytes (n : nat) (z : Z) : len (le_bytes n z) = Z.of_nat n.
Proof. unfold len. now rewrite length_le_bytes. Qed.

Lemma Return_inj {A : Type} (a b : A) : Return a = Return b -> a = b.
Proof. intros H. now injection H. Qed.

Lemma encodable_decodes (value : NativeType) :
  forall with_fds, encodable with_fds value = true -> decodes value.
Proof.
  induction value as [ |b|n|bits|s|b|b|l b|fd|items IH|items IH|items IH]
    using NativeType_nested_ind;
    intros with_fds Hdom index w Hwire pre post rest Hpre;
    cbn [encodable] in Hdom; try discriminate;
    cbn [wire] in Hwire; cbn [fds_of app].
  - apply Return_inj in Hwire as <-. exists 1%nat. dispatch.
    now rewrite slice_from_app by (now rewrite len_tag).
  - exists 1%nat. destruct b; apply Return_inj in Hwire as <-; dispatch;
      now rewrite slice_from_app by (now rewrite len_tag).
  - destruct (int64_to_bytes n) as [payload|e] eqn:Hpayload; [|discriminate].
    apply int64_to_bytes_inv in Hpayload as [-> Hrange].
    apply Return_inj in Hwire as <-. exists 1%nat. rewrite <- app_assoc. dispatch.
    rewrite slice_app by (rewrite ?len_tag, ?len_le_bytes; lia).
    rewrite int_from_bytes_i64 by exact Hrange. cbn [bind].
    now rewrite slice_from_app2 by (rewrite ?len_tag, ?len_le_bytes; lia).
  - apply andb_prop in Hdom as [Hlo Hhi]. apply Z.leb_le in Hlo.
    apply Z.ltb_lt in Hhi.
    apply Return_inj in Hwire as <-. exists 1%nat. rewrite <- app_assoc. dispatch.
    unfold float_to_bytes.
    rewrite slice_app by (rewrite ?len_tag, ?len_le_bytes; lia).
    fold (float_to_bytes bits).
    rewrite float_from_bytes_to_bytes by lia. cbn [bind].
    unfold float_to_bytes.
    now rewrite slice_from_app2 by (rewrite ?len_tag, ?len_le_bytes; lia).
  - destruct (Utf8.encode s) as [text|e] eqn:Htext; [|discriminate].
    cbn [bind] in Hwire.
    destruct (int32_to_bytes (len text)) as [length|e] eqn:Hlength; [|discriminate].
    apply int32_to_bytes_inv in Hlength as [-> Hrange].
    apply Return_inj in Hwire as <-. exists 1%nat. rewrite <- !app_assoc. dispatch.
    rewrite slice_app by (rewrite ?len_tag, ?len_le_bytes; lia).
    rewrite int_from_bytes_u32 by exact Hrange. cbn [bind].
    rewrite slice_app2 by (rewrite ?len_tag, ?len_le_bytes; lia).
    unfold Utf8.decode. rewrite (decode_encode _ _ Htext). cbn [bind].
    rewrite (app_assoc (tag STRING)), (app_assoc _ text).
    now rewrite slice_from_app by (rewrite !len_app, len_tag, len_le_bytes; lia).
  - destruct (int32_to_bytes (len b)) as [length|e] eqn:Hlength; [|discriminate].
    apply int32_to_bytes_inv in Hlength as [-> Hrange].
    apply Return_inj in Hwire as <-. exists 1%nat. rewrite <- !app_assoc. dispatch.
    rewrite slice_app by (rewrite ?len_tag, ?len_le_bytes; lia).
    rewrite int_from_bytes_u32 by exact Hrange. cbn [bind].
    rewrite slice_app2 by (rewrite ?len_tag, ?len_le_bytes; lia).
    rewrite (app_assoc (tag BYTES)), (app_assoc _ b).
    now rewrite slice_from_app by (rewrite !len_app, len_tag, len_le_bytes; lia).
  - destruct (int32_to_bytes index) as [i|e] eqn:Hi; [|discriminate].
    apply int32_to_bytes_inv in Hi as [-> Hrange].
    apply Return_inj in Hwire as <-. exists 1%nat. rewrite <- app_assoc. dispatch.
    rewrite slice_app by (rewrite ?len_tag, ?len_le_bytes; lia).
    rewrite int_from_bytes_u32 by exact Hrange. cbn [bind].
    rewrite <- Hpre, getitem_middle. cbn [bind].
    now rewrite slice_from_app2 by (rewrite ?len_tag, ?len_le_bytes; lia).
  - apply andb_prop in Hdom as [Hdom Hkeys].
    destruct (wire_items wire index items) as [body|e] eqn:Hbody; [|discriminate].
    apply Return_inj in Hwire as <-.
    destruct (dict_loop_decodes with_fds items IH Hdom index body Hbody
                pre post rest [] Hpre Hkeys) as [fuel Hloop].
    exists (S fuel). rewrite <- !app_assoc. dispatch.
    rewrite slice_from_app by (now rewrite len_tag). exact Hloop.
  - destruct (wire_each wire index items) as [body|e] eqn:Hbody; [|discriminate].
    apply Return_inj in Hwire as <-.
    destruct (array_loop_decodes with_fds items IH Hdom index body Hbody
                pre post rest [] Hpre) as [fuel Hloop].
    exists (S fuel). rewrite <- !app_assoc. dispatch.
    rewrite slice_from_app by (now rewrite len_tag). exact Hloop.
Qed.




Lemma len_nonneg {A : Type} (l : list A) : 0 <= len l.
Proof. unfold len. lia. Qed.


Lemma encodable_no_fds (value : NativeType) :
  encodable false value = true -> fds_of value = [].
Proof.
  induction value as [ |b|n|bits|s|b|b|l b|fd|items IH|items IH|items IH]
    using NativeType_nested_ind;
    intros Hdom; cbn [encodable] in Hdom; try discriminate; cbn [fds_of];
    try reflexivity.
  - apply andb_prop in Hdom as [Hdom _].
    induction IH as [|[key value] items [Hkey Hvalue] _ IHitems]; [reflexivity|].
    cbn [forallb] in Hdom. apply andb_prop in Hdom as [Hdom1 Hdom2].
    apply andb_prop in Hdom1 as [Hdomk Hdomv]. cbn [flat_map fst snd] in *.
    now rewrite (Hkey Hdomk), (Hvalue Hdomv), (IHitems Hdom2).
  - induction IH as [|item items Hitem _ IHitems]; [reflexivity|].
    cbn [forallb] in Hdom. apply andb_prop in Hdom as [Hdom1 Hdom2].
    cbn [flat_map]. now rewrite (Hitem Hdom1), (IHitems Hdom2).
Qed.

(** What [deserialize] makes of a parse that used up the data. *)
Lemma deserialize_parsed fds data value :
  parses fds data [] (PValue value) -> deserialize data fds = Some (Return value).
Proof.
  intros [fuel Hparse]. unfold deserialize.
  now rewrite (parse_with_any_fuel _ _ _ _ Hparse).
Qed.









(** C8: FD table indirection.  For an FD handle [_serialize] writes the FD
    marker and, as a u32, the length the FD list has at that moment, then
    appends the handle.  So what [serialize] returns for a value is the
    encoding by position [wire 0 value] -- the i-th handle of the descent
    carries index i -- together with the handles in the order of the
    descent; and decoding that data against that list puts every handle
    back in its place. *)
Theorem fd_table_indirection (value : NativeType) :
  (forall buffer fds fd, len fds < 2 ^ 32 ->
     _serialize buffer fds (VFd fd)
       = Return (buffer ++ tag FD ++ le_bytes 4 (len fds), fds ++ [fd])) /\
  (forall data fds, serialize value = Return (data, fds) ->
     fds = fds_of value /\
     wire 0 value = Return data /\
     (encodable true value = true ->
      deserialize data fds = Some (Return value))).
Proof.
  split.
  - intros buffer fds fd Hlen. cbn [_serialize]. rewrite put_tag. cbn [bind].
    unfold put.
    rewrite int32_to_bytes_ok by (pose proof (len_nonneg fds); lia).
    cbn [bind]. now rewrite <- app_assoc.
  - intros data fds Hser. unfold serialize in Hser.
    rewrite serialize_wire in Hser. change (len (@nil Fd)) with 0 in Hser.
    destruct (wire 0 value) as [w|e] eqn:Hwire; [|discriminate].
    cbn [bind app] in Hser. apply Return_inj in Hser.
    assert (w = data /\ fds_of value = fds) as [-> <-]
      by (split; congruence).
    split; [reflexivity|]. split; [reflexivity|].
    intros Hdom. apply deserialize_parsed.
    pose proof (encodable_decodes value true Hdom 0 data Hwire [] [] [] eq_refl)
      as Hparse.
    rewrite !app_nil_r in Hparse. exact Hparse.
Qed.

Lemma fd_table_indirection_witness :
  let value := VList [VFd (mkFd 5 true);
                      VDict [(VInt 1, VFd (mkFd 7 true))];
                      VFd (mkFd 9 false)] in
  exists data fds,
    serialize value = Return (data, fds) /\
    fds = [mkFd 5 true; mkFd 7 true; mkFd 9 false] /\
    wire 0 value = Return data /\
    deserialize data fds = Some (Return value).
Proof.
  intros value.
  destruct (serialize value) as [[data fds]|e] eqn:Hser; [|discriminate Hser].
  destruct (proj2 (fd_table_indirection value) data fds Hser)
    as (Hfds & Hwire & Hback).
  exists data, fds. split; [reflexivity|]. split; [exact Hfds|].
  split; [exact Hwire|]. apply Hback. reflexivity.
Defined.

End RoundTrip.

(** ** Malformed input *)
Section MalformedInput.
Import Types Convert Codecs CodecSpec.

Scheme unknown_marker_min := Minimality for unknown_marker Sort Prop
  with unknown_in_array_min := Minimality for unknown_in_array Sort Prop
  with unknown_in_dict_min := Minimality for unknown_in_dict Sort Prop.
Combined Scheme unknown_marker_mutual
  from unknown_marker_min, unknown_in_array_min, unknown_in_dict_min.

Lemma unknown_marker_raises (fds : list Fd) :
  (forall data, unknown_marker fds data ->
     exists fuel, _deserialize fuel fds data = Some (Raise DecoderError)) /\
  (forall data, unknown_in_array fds data ->
     forall acc, exists fuel,
       array_loop fuel fds data acc = Some (Raise DecoderError)) /\
  (forall data acc, unknown_in_dict fds data acc ->
     exists fuel, dict_loop fuel fds data acc = Some (Raise DecoderError)).
Proof.
  apply unknown_marker_mutual.
  - intros data type_ Htype Hout. exists 1%nat.
    cbn [_deserialize bindM marker_value]. rewrite Htype. cbn [bindM].
    repeat match goal with
    | |- context [Z.eqb ?a ?b] => destruct (Z.eqb_spec a b); [lia|]
    end.
    reflexivity.
  - intros data Htype _ IH. destruct (IH []) as [fuel Hloop].
    exists (S fuel). cbn [_deserialize bindM]. rewrite Htype.
    cbn [bindM marker_value Z.eqb Pos.eqb]. exact Hloop.
  - intros data Htype _ [fuel Hloop].
    exists (S fuel). cbn [_deserialize bindM]. rewrite Htype.
    cbn [bindM marker_value Z.eqb Pos.eqb]. exact Hloop.
  - intros data _ [fuel Hv] acc. exists (S fuel).
    cbn [array_loop]. rewrite Hv. reflexivity.
  - intros data rest value [fuel1 Hv] _ IH acc.
    destruct (IH (acc ++ [value])) as [fuel2 Hloop].
    exists (S (Nat.max fuel1 fuel2)). cbn [array_loop].
    rewrite (proj1 (fuel_mono _) _ _ _ _ (Nat.le_max_l fuel1 fuel2) Hv).
    cbn [bindM].
    apply (proj1 (proj2 (fuel_mono _)) _ _ _ _ _ (Nat.le_max_r fuel1 fuel2) Hloop).
  - intros data acc _ [fuel Hk]. exists (S fuel).
    cbn [dict_loop]. rewrite Hk. reflexivity.
  - intros data acc rest key [fuel1 Hk] _ [fuel2 Hv].
    exists (S (Nat.max fuel1 fuel2)). cbn [dict_loop].
    rewrite (proj1 (fuel_mono _) _ _ _ _ (Nat.le_max_l fuel1 fuel2) Hk).
    cbn [bindM].
    rewrite (proj1 (fuel_mono _) _ _ _ _ (Nat.le_max_r fuel1 fuel2) Hv).
    reflexivity.
  - intros data acc rest key rest' value acc' [fuel1 Hk] [fuel2 Hv] Hset _
      [fuel3 Hloop].
    set (fuel := Nat.max fuel1 (Nat.max fuel2 fuel3)).
    assert (fuel1 <= fuel)%nat as Hle1 by lia.
    assert (fuel2 <= fuel)%nat as Hle2 by lia.
    assert (fuel3 <= fuel)%nat as Hle3 by lia.
    exists (S fuel). cbn [dict_loop].
    rewrite (proj1 (fuel_mono _) _ _ _ _ Hle1 Hk). cbn [bindM].
    rewrite (proj1 (fuel_mono _) _ _ _ _ Hle2 Hv). cbn [bindM].
    rewrite Hset. cbn [bindM].
    apply (proj2 (proj2 (fuel_mono _)) _ _ _ _ _ Hle3 Hloop).
Qed.

(** C7: [deserialize] raises [DecoderError] (i) when the top-level value
    parses and bytes remain after it, (ii) when the data starts with the
    ARRAY_END or DICT_END marker, and (iii) when the parser, at the top or
    inside arrays and dicts, comes to a 32-bit marker outside 0..11. *)
Theorem malformed_input_rejected (fds : list Fd) (data : list byte) :
  (forall rest p, parses fds data rest p -> rest <> [] ->
     deserialize data fds = Some (Raise DecoderError)) /\
  (forall type_, int_from_bytes (slice 0 4 data) = Return type_ ->
     type_ = marker_value ARRAY_END \/ type_ = marker_value DICT_END ->
     deserialize data fds = Some (Raise DecoderError)) /\
  (unknown_marker fds data ->
     deserialize data fds = Some (Raise DecoderError)).
Proof.
  split; [|split].
  - intros rest p [fuel Hparse] Hrest. unfold deserialize.
    rewrite (parse_with_any_fuel _ _ _ _ Hparse).
    destruct rest as [|b rest]; [congruence|]. reflexivity.
  - intros type_ Htype Hclosing. unfold deserialize.
    cbn [_deserialize bindM]. rewrite Htype. cbn [bindM].
    destruct Hclosing as [-> | ->]; cbn [marker_value Z.eqb Pos.eqb];
      destruct (negb (len (slice_from 4 data) =? 0)); reflexivity.
  - intros Hunknown.
    destruct (proj1 (unknown_marker_raises fds) data Hunknown) as [fuel Hraise].
    unfold deserialize. rewrite (parse_with_any_fuel _ _ _ _ Hraise).
    reflexivity.
Qed.

Lemma malformed_input_rejected_witness :
  deserialize (tag NONE ++ [x00]) [] = Some (Raise DecoderError) /\
  deserialize (tag ARRAY_END) [] = Some (Raise DecoderError) /\
  deserialize (tag ARRAY_START ++ tag TRUE ++ le_bytes 4 12 ++ tag ARRAY_END) []
    = Some (Raise DecoderError).
Proof.
  split; [|split].
  - apply (proj1 (malformed_input_rejected [] (tag NONE ++ [x00])) [x00] (PValue VNone)).
    + exists 1%nat. reflexivity.
    + discriminate.
  - apply (proj1 (proj2 (malformed_input_rejected [] (tag ARRAY_END))) 8).
    + reflexivity.
    + left. reflexivity.
  - apply (proj2 (proj2 (malformed_input_rejected []
             (tag ARRAY_START ++ tag TRUE ++ le_bytes 4 12 ++ tag ARRAY_END)))).
    apply unknown_array; [reflexivity|].
    apply (unknown_later_item _ _ (le_bytes 4 12 ++ tag ARRAY_END) (VBool true)).
    + exists 1%nat. reflexivity.
    + apply unknown_item. apply (unknown_here _ _ 12); [reflexivity|lia].
Defined.

(** C6 fails on the code: a STRING (or BYTES) whose length prefix promises
    100 bytes where 3 remain is returned cut short, because the slice
    [data[8:end]] just stops at the end of the data. *)
Theorem truncated_payload_is_returned :
  deserialize (tag STRING ++ le_bytes 4 100 ++ [x61; x62; x63]) []
    = Some (Return (VStr [97; 98; 99])) /\
  deserialize (tag BYTES ++ le_bytes 4 100 ++ [x61; x62; x63]) []
    = Some (Return (VBytes [x61; x62; x63])).
Proof. split; reflexivity. Qed.

End MalformedInput.

(** ** More on the decoder *)
Section DecoderEdges.
Import Types Convert Codecs CodecSpec.

Lemma getitem_nth {A : Type} (l : list A) (i : Z) :
  0 <= i ->
  getitem l i = match nth_error l (Z.to_nat i) with
                | Some a => Return a
                | None => Raise IndexError
                end.
Proof.
  intros Hi. unfold getitem.
  assert ((i <? 0) = false) as Hneg by (apply Z.ltb_ge; lia).
  rewrite !Hneg. reflexivity.
Qed.

Lemma parse_fd fuel (fds : list Fd) (index : Z) (rest : list byte) :
  0 <= index < 2 ^ 32 ->
  _deserialize (S fuel) fds (tag FD ++ le_bytes 4 index ++ rest) =
    Some (let* fd := getitem fds index in Return (rest, PValue (VFd fd))).
Proof.
  intros Hindex. cbn [_deserialize bindM].
  rewrite read_tag. cbn [bindM marker_value Z.eqb Pos.eqb].
  rewrite slice_app by (rewrite ?len_tag, ?len_le_bytes; lia).
  rewrite int_from_bytes_u32 by exact Hindex. cbn [bind].
  rewrite slice_from_app2 by (rewrite ?len_tag, ?len_le_bytes; lia).
  reflexivity.
Qed.

(** X3: an FD marker is decoded by looking its index up in the FD list
    given to [deserialize]: the handle at that place comes back as it is,
    not duplicated, and an index past the end of the list is a
    [DecoderError]. *)
Theorem fd_marker_lookup (fds : list Fd) (index : Z) :
  0 <= index < 2 ^ 32 ->
  deserialize (tag FD ++ le_bytes 4 index) fds =
    Some (match nth_error fds (Z.to_nat index) with
          | Some fd => Return (VFd fd)
          | None => Raise DecoderError
          end).
Proof.
  intros Hindex.
  replace (tag FD ++ le_bytes 4 index) with (tag FD ++ le_bytes 4 index ++ [])
    by (now rewrite app_nil_r).
  unfold deserialize. rewrite (parse_fd _ fds index [] Hindex).
  rewrite getitem_nth by lia.
  destruct (nth_error fds (Z.to_nat index)); reflexivity.
Qed.

Lemma fd_marker_lookup_witness :
  deserialize (tag FD ++ le_bytes 4 1) [mkFd 3 true; mkFd 4 false]
    = Some (Return (VFd (mkFd 4 false))) /\
  deserialize (tag FD ++ le_bytes 4 2) [mkFd 3 true; mkFd 4 false]
    = Some (Raise DecoderError).
Proof.
  split.
  - apply (fd_marker_lookup [mkFd 3 true; mkFd 4 false] 1). lia.
  - apply (fd_marker_lookup [mkFd 3 true; mkFd 4 false] 2). lia.
Defined.

(** X4: a STRING whose payload is all there but is not UTF-8 is rejected
    with [DecoderError], whatever follows it. *)
Theorem invalid_utf8_rejected (payload rest : list byte) (fds : list Fd) :
  len payload < 2 ^ 32 ->
  Utf8.decode_points payload = None ->
  deserialize (tag STRING ++ le_bytes 4 (len payload) ++ payload ++ rest) fds
    = Some (Raise DecoderError).
Proof.
  intros Hlen Hbad. unfold deserialize. cbn [_deserialize bindM].
  rewrite read_tag. cbn [bindM marker_value Z.eqb Pos.eqb].
  pose proof (len_nonneg payload) as Hpos.
  rewrite slice_app by (rewrite ?len_tag, ?len_le_bytes; lia).
  rewrite int_from_bytes_u32 by lia. cbn [bind].
  rewrite slice_app2 by (rewrite ?len_tag, ?len_le_bytes; lia).
  unfold Utf8.decode. rewrite Hbad. reflexivity.
Qed.

Lemma invalid_utf8_rejected_witness :
  deserialize (tag STRING ++ le_bytes 4 (len [xc3; x28]) ++ [xc3; x28] ++ []) []
    = Some (Raise DecoderError).
Proof. apply invalid_utf8_rejected; vm_compute; reflexivity. Defined.

End DecoderEdges.

(** ** More on the codec: what goes in and what comes back *)
Section CodecLaws.
Import Types Convert Codecs CodecSpec.

Lemma serialize_is_wire value data fds :
  serialize value = Return (data, fds) ->
  wire 0 value = Return data /\ fds = fds_of value.
Proof.
  unfold serialize. rewrite serialize_wire. change (len (@nil Fd)) with 0.
  destruct (wire 0 value) as [w|e]; [|discriminate]. cbn [bind app].
  intros H. apply Return_inj in H. split; congruence.
Qed.

Lemma serialized_parses with_fds value data fds rest :
  encodable with_fds value = true ->
  serialize value = Return (data, fds) ->
  parses fds (data ++ rest) rest (PValue value).
Proof.
  intros Hdom Hser. apply serialize_is_wire in Hser as [Hwire ->].
  pose proof (encodable_decodes value with_fds Hdom 0 data Hwire [] [] rest eq_refl)
    as Hparse.
  cbn [app] in Hparse. rewrite app_nil_r in Hparse. exact Hparse.
Qed.

Lemma fd_free_parses value data fds fds' rest :
  in_domain value = true ->
  serialize value = Return (data, fds) ->
  parses fds' (data ++ rest) rest (PValue value).
Proof.
  unfold in_domain. intros Hdom Hser. apply serialize_is_wire in Hser as [Hwire _].
  pose proof (encodable_decodes value false Hdom 0 data Hwire [] fds' rest eq_refl)
    as Hparse.
  rewrite (encodable_no_fds value Hdom) in Hparse. exact Hparse.
Qed.

Lemma deserialize_raised fuel fds data e :
  _deserialize fuel fds data = Some (Raise e) ->
  deserialize data fds = Some (Raise (if caught e then DecoderError else e)).
Proof.
  intros H. unfold deserialize. now rewrite (parse_with_any_fuel _ _ _ _ H).
Qed.

(** One round of the dict loop, and its last. *)
Lemma dict_loop_round fds data rest rest' key value acc acc' r :
  parses fds data rest (PValue key) ->
  parses fds rest rest' (PValue value) ->
  dict_setitem acc key value = Return acc' ->
  (exists fuel, dict_loop fuel fds rest' acc' = Some r) ->
  exists fuel, dict_loop fuel fds data acc = Some r.
Proof.
  intros [fuel1 Hk] [fuel2 Hv] Hset [fuel3 Hloop].
  set (fuel := Nat.max fuel1 (Nat.max fuel2 fuel3)).
  assert (fuel1 <= fuel)%nat as Hle1 by lia.
  assert (fuel2 <= fuel)%nat as Hle2 by lia.
  assert (fuel3 <= fuel)%nat as Hle3 by lia.
  exists (S fuel). cbn [dict_loop].
  rewrite (proj1 (fuel_mono _) _ _ _ _ Hle1 Hk). cbn [bindM].
  rewrite (proj1 (fuel_mono _) _ _ _ _ Hle2 Hv). cbn [bindM].
  rewrite Hset. cbn [bindM].
  apply (proj2 (proj2 (fuel_mono _)) _ _ _ _ _ Hle3 Hloop).
Qed.

Lemma dict_loop_unhashable fds data rest rest' key value acc :
  parses fds data rest (PValue key) ->
  parses fds rest rest' (PValue value) ->
  hashable key = false ->
  exists fuel, dict_loop fuel fds data acc = Some (Raise TypeError).
Proof.
  intros [fuel1 Hk] [fuel2 Hv] Hhash.
  exists (S (Nat.max fuel1 fuel2)). cbn [dict_loop].
  rewrite (proj1 (fuel_mono _) _ _ _ _ (Nat.le_max_l fuel1 fuel2) Hk).
  cbn [bindM].
  rewrite (proj1 (fuel_mono _) _ _ _ _ (Nat.le_max_r fuel1 fuel2) Hv).
  cbn [bindM]. unfold dict_setitem. rewrite Hhash. reflexivity.
Qed.

Lemma dict_loop_last fds rest acc :
  exists fuel,
    dict_loop fuel fds (tag DICT_END ++ rest) acc
      = Some (Return (rest, PValue (VDict acc))).
Proof.
  exists 2%nat. cbn [dict_loop]. rewrite (proj2 (parse_closing _ _ _)). reflexivity.
Qed.

Lemma parse_dict fds body r :
  (exists fuel, dict_loop fuel fds body [] = Some r) ->
  exists fuel, _deserialize fuel fds (tag DICT_START ++ body) = Some r.
Proof.
  intros [fuel Hloop]. exists (S fuel). cbn [_deserialize bindM].
  rewrite read_tag. cbn [bindM marker_value Z.eqb Pos.eqb].
  rewrite slice_from_app by (now rewrite len_tag). exact Hloop.
Qed.

(** X5: a dict on the wire whose key is an array or a dict makes
    [deserialize] raise [TypeError], not [DecoderError]: [result[key] = value]
    cannot hash the key, and the [except] clause does not catch that. *)
Theorem unhashable_key_raises_type_error
    (key value : NativeType) (wk wv rest : list byte) (fds : list Fd) :
  in_domain key = true -> in_domain value = true ->
  hashable key = false ->
  serialize key = Return (wk, []) ->
  serialize value = Return (wv, []) ->
  deserialize (tag DICT_START ++ wk ++ wv ++ rest) fds = Some (Raise TypeError).
Proof.
  intros Hdk Hdv Hhash Hk Hv.
  destruct (parse_dict fds (wk ++ wv ++ rest) (Raise TypeError)) as [fuel Hparse].
  - eapply dict_loop_unhashable; [| |exact Hhash].
    + exact (fd_free_parses key wk [] fds _ Hdk Hk).
    + exact (fd_free_parses value wv [] fds _ Hdv Hv).
  - apply (deserialize_raised _ _ _ _ Hparse).
Qed.

Lemma unhashable_key_raises_type_error_witness :
  deserialize (tag DICT_START ++ (tag ARRAY_START ++ tag ARRAY_END)
               ++ tag NONE ++ tag DICT_END) []
    = Some (Raise TypeError).
Proof.
  apply (unhashable_key_raises_type_error (VList []) VNone); reflexivity.
Defined.

(** X6: when the wire repeats a dict key -- a key equal in Python's sense
    to an earlier one, like [1] after [True] -- the decoded dict keeps the
    first key in its place and the last value. *)
Theorem repeated_key_keeps_first_key_last_value
    (k1 k2 v1 v2 : NativeType) (wk1 wk2 wv1 wv2 : list byte) (fds : list Fd) :
  in_domain k1 = true -> in_domain k2 = true ->
  in_domain v1 = true -> in_domain v2 = true ->
  hashable k1 = true -> hashable k2 = true -> key_eq k1 k2 = true ->
  serialize k1 = Return (wk1, []) -> serialize v1 = Return (wv1, []) ->
  serialize k2 = Return (wk2, []) -> serialize v2 = Return (wv2, []) ->
  deserialize (tag DICT_START ++ wk1 ++ wv1 ++ wk2 ++ wv2 ++ tag DICT_END) fds
    = Some (Return (VDict [(k1, v2)])).
Proof.
  intros Hdk1 Hdk2 Hdv1 Hdv2 Hh1 Hh2 Heq Hk1 Hv1 Hk2 Hv2.
  apply deserialize_parsed.
  apply (parse_dict fds (wk1 ++ wv1 ++ wk2 ++ wv2 ++ tag DICT_END)).
  eapply dict_loop_round.
  - exact (fd_free_parses k1 wk1 [] fds _ Hdk1 Hk1).
  - exact (fd_free_parses v1 wv1 [] fds _ Hdv1 Hv1).
  - unfold dict_setitem. rewrite Hh1. reflexivity.
  - eapply dict_loop_round.
    + exact (fd_free_parses k2 wk2 [] fds _ Hdk2 Hk2).
    + exact (fd_free_parses v2 wv2 [] fds _ Hdv2 Hv2).
    + unfold dict_setitem. rewrite Hh2. cbn [app dict_replace default].
      rewrite Heq. reflexivity.
    + rewrite <- (app_nil_r (tag DICT_END)). apply dict_loop_last.
Qed.

Lemma repeated_key_keeps_first_key_last_value_witness :
  deserialize (tag DICT_START ++ tag TRUE ++ tag NONE
               ++ (tag INT64 ++ le_bytes 8 1) ++ tag FALSE ++ tag DICT_END) []
    = Some (Return (VDict [(VBool true, VBool false)])).
Proof.
  apply (repeated_key_keeps_first_key_last_value
           (VBool true) (VInt 1) VNone (VBool false)); reflexivity.
Defined.



Lemma encode_point_not_scalar c :
  Utf8.is_scalar c = false -> Utf8.encode_point c = None.
Proof.
  unfold Utf8.is_scalar, Utf8.encode_point. intros H.
  destruct (Utf8.is_surrogate c).
  - now rewrite !orb_true_r.
  - rewrite andb_true_r in H. apply andb_false_iff in H as [H|H].
    + apply Z.leb_gt in H. apply Z.ltb_lt in H. now rewrite H.
    + apply Z.leb_gt in H. apply Z.ltb_lt in H. rewrite H. now rewrite orb_true_r.
Qed.

Lemma encode_not_scalar s :
  forallb Utf8.is_scalar s = false -> Utf8.encode s = Raise UnicodeEncodeError.
Proof.
  induction s as [|c s IH]; intros H; [discriminate|].
  cbn [forallb] in H. cbn [Utf8.encode].
  destruct (Utf8.is_scalar c) eqn:Hc.
  - cbn [andb] in H. rewrite (IH H).
    destruct (Utf8.encode_point c); reflexivity.
  - now rewrite (encode_point_not_scalar c Hc).
Qed.

(** X8: a string that holds a surrogate (or any code point UTF-8 has no
    encoding for) makes [_serialize] raise the [UnicodeEncodeError] of
    [str.encode], not [EncoderError], and nothing is written for it. *)
Theorem surrogate_raises_unicode_error (buffer : list byte) (fds : list Fd)
    (s : list Z) :
  forallb Utf8.is_scalar s = false ->
  _serialize buffer fds (VStr s) = Raise UnicodeEncodeError /\
  serialize (VList [VStr s]) = Raise UnicodeEncodeError.
Proof.
  intros Hs. unfold serialize. cbn [_serialize serialize_each].
  rewrite (encode_not_scalar s Hs). split; reflexivity.
Qed.

Lemma surrogate_raises_unicode_error_witness :
  _serialize [] [] (VStr [97; 0xD800]) = Raise UnicodeEncodeError /\
  serialize (VList [VStr [97; 0xD800]]) = Raise UnicodeEncodeError.
Proof. apply surrogate_raises_unicode_error. reflexivity. Defined.

(** X9: an encoding is self-delimiting.  Followed by any bytes, what
    [serialize] returned for a value still parses to that value and leaves
    exactly those bytes; so [deserialize] rejects it as soon as one byte
    follows. *)
Theorem encoding_is_self_delimiting (value : NativeType) (data rest : list byte)
    (fds : list Fd) :
  encodable true value = true ->
  serialize value = Return (data, fds) ->
  parses fds (data ++ rest) rest (PValue value) /\
  (rest <> [] -> deserialize (data ++ rest) fds = Some (Raise DecoderError)).
Proof.
  intros Hdom Hser.
  pose proof (serialized_parses true value data fds rest Hdom Hser) as Hparse.
  split; [exact Hparse|]. intros Hrest. destruct Hparse as [fuel Hparse].
  unfold deserialize. rewrite (parse_with_any_fuel _ _ _ _ Hparse).
  destruct rest; [congruence|reflexivity].
Qed.

Lemma encoding_is_self_delimiting_witness :
  parses [mkFd 3 true] ((tag ARRAY_START ++ (tag FD ++ le_bytes 4 0) ++ tag ARRAY_END)
                        ++ [x00]) [x00] (PValue (VList [VFd (mkFd 3 true)])) /\
  deserialize ((tag ARRAY_START ++ (tag FD ++ le_bytes 4 0) ++ tag ARRAY_END) ++ [x00])
    [mkFd 3 true] = Some (Raise DecoderError).
Proof.
  destruct (encoding_is_self_delimiting (VList [VFd (mkFd 3 true)])
              (tag ARRAY_START ++ (tag FD ++ le_bytes 4 0) ++ tag ARRAY_END)
              [x00] [mkFd 3 true] eq_refl eq_refl) as [H1 H2].
  split; [exact H1|]. apply H2. discriminate.
Defined.

(** X10: two values of the codec's domain with the same encoding (data
    and FD list) are the same value. *)
Theorem serialize_is_injective (v1 v2 : NativeType) (data : list byte)
    (fds : list Fd) :
  encodable true v1 = true -> encodable true v2 = true ->
  serialize v1 = Return (data, fds) ->
  serialize v2 = Return (data, fds) ->
  v1 = v2.
Proof.
  intros Hd1 Hd2 Hs1 Hs2.
  pose proof (serialized_parses true v1 data fds [] Hd1 Hs1) as H1.
  pose proof (serialized_parses true v2 data fds [] Hd2 Hs2) as H2.
  apply deserialize_parsed in H1. apply deserialize_parsed in H2.
  congruence.
Qed.

Lemma serialize_is_injective_witness :
  VList [VBool true; VFd (mkFd 3 true)] = VList [VBool true; VFd (mkFd 3 true)].
Proof.
  apply (serialize_is_injective _ _
           (tag ARRAY_START ++ tag TRUE ++ (tag FD ++ le_bytes 4 0) ++ tag ARRAY_END)
           [mkFd 3 true]); reflexivity.
Defined.

Lemma len_tag_app (m : Markers) (l : list byte) : 4 <= len (tag m ++ l).
Proof. rewrite len_app, len_tag. pose proof (len_nonneg l). lia. Qed.

Lemma wire_at_least_a_marker index value w :
  wire index value = Return w -> 4 <= len w.
Proof.
  destruct value as [ |[]|n|bits|s|b|b|l b|fd|items|items|items]; cbn [wire];
    intros H;
    repeat match type of H with
    | (let* _ := ?m in _) = _ => destruct m; cbn [bind] in H; [|discriminate]
    end;
    try discriminate; apply Return_inj in H; subst w;
    first [rewrite len_tag; lia | apply len_tag_app].
Qed.

(** X11: [_serialize] only ever appends.  The buffer it returns is the
    buffer it was given followed by at least the four bytes of a marker, the
    FD list the one it was given followed by the handles of the value; and
    the bytes appended do not depend on what the buffer held. *)
Theorem serialize_only_appends (buffer : list byte) (fds : list Fd)
    (value : NativeType) (buffer' : list byte) (fds' : list Fd) :
  _serialize buffer fds value = Return (buffer', fds') ->
  exists w,
    buffer' = buffer ++ w /\ 4 <= len w /\ fds' = fds ++ fds_of value /\
    forall other, _serialize other fds value = Return (other ++ w, fds').
Proof.
  rewrite serialize_wire. intros H.
  destruct (wire (len fds) value) as [w|e] eqn:Hwire; [|discriminate].
  cbn [bind] in H. apply Return_inj in H.
  assert (buffer ++ w = buffer' /\ fds ++ fds_of value = fds') as [<- <-]
    by (split; congruence).
  exists w. split; [reflexivity|].
  split; [exact (wire_at_least_a_marker _ _ _ Hwire)|].
  split; [reflexivity|].
  intros other. rewrite serialize_wire, Hwire. reflexivity.
Qed.

Lemma serialize_only_appends_witness :
  exists w,
    [x09] ++ tag FD ++ le_bytes 4 1 = [x09] ++ w /\ 4 <= len w /\
    [mkFd 3 true; mkFd 4 true] = [mkFd 3 true] ++ fds_of (VFd (mkFd 4 true)) /\
    forall other,
      _serialize other [mkFd 3 true] (VFd (mkFd 4 true))
        = Return (other ++ w, [mkFd 3 true; mkFd 4 true]).
Proof.
  apply (serialize_only_appends [x09] [mkFd 3 true] (VFd (mkFd 4 true))).
  reflexivity.
Defined.

End CodecLaws.

(** ** More on the FD handle *)
Section FdLife.
Import Types.

(** X12: [Fd(value, duplicate=...)].  A negative value raises [ValueError]
    before anything is duplicated; without [duplicate] the handle adopts
    the value as it is; with [duplicate] it owns a descriptor that was not
    open before, the caller's own staying open, and fails with [OSError] if
    the caller's descriptor is not open. *)
Theorem fd_init_adopts_or_duplicates (value : Z) (duplicate : bool)
    (table : fd_table) :
  (value < 0 -> __init__ value duplicate table = Raise ValueError) /\
  (0 <= value -> duplicate = false ->
   __init__ value duplicate table = Return (mkFd value true, table)) /\
  (0 <= value -> duplicate = true -> value ∈ table ->
   exists n, __init__ value duplicate table = Return (mkFd n true, {[n]} ∪ table)
             /\ (n ∉ table) /\ n <> value /\ (value ∈ ({[n]} ∪ table))) /\
  (0 <= value -> duplicate = true -> value ∉ table ->
   __init__ value duplicate table = Raise OSError).
Proof.
  unfold __init__. split; [|split; [|split]].
  - intros Hneg. destruct (Z.ltb_spec value 0); [reflexivity|lia].
  - intros Hpos ->. destruct (Z.ltb_spec value 0); [lia|reflexivity].
  - intros Hpos -> Hopen. destruct (Z.ltb_spec value 0); [lia|].
    destruct (os_dup_open table value Hopen) as (n & -> & Hfresh).
    exists n. split; [reflexivity|]. split; [exact Hfresh|].
    split; [intros ->; contradiction|set_solver].
  - intros Hpos -> Hclosed. destruct (Z.ltb_spec value 0); [lia|].
    unfold os_dup. destruct (decide (value ∈ table)); [contradiction|reflexivity].
Qed.

Lemma fd_init_adopts_or_duplicates_witness :
  __init__ (-1) true {[0; 1]} = Raise ValueError /\
  __init__ 1 false {[0; 1]} = Return (mkFd 1 true, {[0; 1]}) /\
  (exists n, __init__ 1 true {[0; 1]} = Return (mkFd n true, {[n]} ∪ {[0; 1]})
             /\ (n ∉ ({[0; 1]} : gset Z)) /\ n <> 1
             /\ (1 ∈ ({[n]} ∪ {[0; 1]} : gset Z))) /\
  __init__ 5 true {[0; 1]} = Raise OSError.
Proof.
  split; [|split; [|split]].
  - apply (proj1 (fd_init_adopts_or_duplicates (-1) true {[0; 1]})). lia.
  - apply (proj1 (proj2 (fd_init_adopts_or_duplicates 1 false {[0; 1]})));
      [lia|reflexivity].
  - apply (proj1 (proj2 (proj2 (fd_init_adopts_or_duplicates 1 true {[0; 1]}))));
      [lia|reflexivity|compute_done].
  - apply (proj2 (proj2 (proj2 (fd_init_adopts_or_duplicates 5 true {[0; 1]}))));
      [lia|reflexivity|compute_done].
Defined.

(** X13: [close] closes at most once.  When it returns, the handle is no
    longer owned and its value is unchanged; the descriptor has left the
    table if and only if the handle was owned; and every later [close] is a
    no-op that never calls [os.close]. *)
Theorem close_is_idempotent (self self' : Fd) (table table' : fd_table) :
  close self table = Return (self', table') ->
  owned self' = false /\ _value self' = _value self /\
  table' = (if owned self then table ∖ {[_value self]} else table) /\
  forall later, close self' later = Return (self', later).
Proof.
  unfold close, owned. intros H.
  destruct (_auto_close self) eqn:Hown.
  - unfold os_close in H.
    destruct (decide (_value self ∈ table)); [|discriminate].
    cbn [bind] in H. injection H as <- <-. cbn. auto.
  - injection H as <- <-. rewrite Hown. auto.
Qed.

Lemma close_is_idempotent_witness :
  owned (mkFd 3 false) = false /\ _value (mkFd 3 false) = _value (mkFd 3 true) /\
  ({[0; 1; 2]} : gset Z)
    = (if owned (mkFd 3 true) then {[0; 1; 2; 3]} ∖ {[_value (mkFd 3 true)]}
       else {[0; 1; 2; 3]}) /\
  forall later, close (mkFd 3 false) later = Return (mkFd 3 false, later).
Proof.
  apply (close_is_idempotent (mkFd 3 true) (mkFd 3 false) {[0; 1; 2; 3]} {[0; 1; 2]}).
  vm_compute. reflexivity.
Defined.

(** X14: [take] hands the descriptor over.  After [take] on an owned handle
    the descriptor is still open and [close] on the handle leaves it open;
    a second [take] returns another, new descriptor, so the two callers
    hold two different open descriptors. *)
Theorem take_transfers_ownership (self : Fd) (table : fd_table) :
  _auto_close self = true -> _value self ∈ table ->
  exists self1 n,
    take self table = Return (_value self, self1, table) /\
    close self1 table = Return (self1, table) /\
    take self1 table = Return (n, self1, {[n]} ∪ table) /\
    n <> _value self /\ (n ∉ table) /\ (_value self ∈ ({[n]} ∪ table)).
Proof.
  intros Hown Hopen. unfold take at 1. rewrite Hown.
  exists (mkFd (_value self) false).
  destruct (os_dup_open table (_value self) Hopen) as (n & Hdup & Hfresh).
  exists n. split; [reflexivity|]. split; [reflexivity|].
  split; [unfold take; cbn; rewrite Hdup; reflexivity|].
  split; [intros ->; contradiction|]. split; [exact Hfresh|set_solver].
Qed.

Lemma take_transfers_ownership_witness :
  exists self1 n,
    take (mkFd 3 true) {[0; 3]} = Return (_value (mkFd 3 true), self1, {[0; 3]}) /\
    close self1 {[0; 3]} = Return (self1, {[0; 3]}) /\
    take self1 {[0; 3]} = Return (n, self1, {[n]} ∪ {[0; 3]}) /\
    n <> _value (mkFd 3 true) /\ (n ∉ ({[0; 3]} : gset Z)) /\
    (_value (mkFd 3 true) ∈ ({[n]} ∪ {[0; 3]} : gset Z)).
Proof.
  apply (take_transfers_ownership (mkFd 3 true) {[0; 3]});
    [reflexivity|compute_done].
Defined.

End FdLife.

(** ** The result cell *)
Section ResultFacts.
Import UtilsResult.
Context {T : Type}.

Lemma calls_set_event (calls : list (call T)) (r : Result T) :
  _event r = true -> _event (fold_left apply_call calls r) = true.
Proof.
  revert r. induction calls as [|c calls IH]; intros r Hr; [exact Hr|].
  cbn [fold_left]. apply IH. destruct c; reflexivity.
Qed.

Lemma calls_keep_error (calls : list (call T)) (r : Result T) :
  forallb (fun c => negb (is_fail c)) calls = true ->
  error (fold_left apply_call calls r) = error r.
Proof.
  revert r. induction calls as [|c calls IH]; intros r Hcalls; [reflexivity|].
  cbn [forallb] in Hcalls. apply andb_prop in Hcalls as [Hc Hcalls].
  cbn [fold_left]. rewrite (IH _ Hcalls). destruct c; [reflexivity|discriminate].
Qed.

(** X15: a [Result] is not one-shot: the slots keep what the last calls
    put there.  With no call yet [wait] stays suspended; once [fail] has
    been called, [wait] raises the error of the last [fail], whatever [set]
    calls came before or after; with [set] calls only, [wait] returns the
    value of the last one. *)
Theorem result_wait_after_calls (calls : list (call T)) :
  (calls = [] -> wait (fold_left apply_call calls __init__) = None) /\
  (forall before e after,
     calls = before ++ CallFail e :: after ->
     forallb (fun c => negb (is_fail c)) after = true ->
     wait (fold_left apply_call calls __init__) = Some (Raise e)) /\
  (forall before v,
     calls = before ++ [CallSet v] ->
     forallb (fun c => negb (is_fail c)) before = true ->
     wait (fold_left apply_call calls __init__) = Some (Return v)).
Proof.
  split; [|split].
  - intros ->. reflexivity.
  - intros before e after -> Hafter. rewrite fold_left_app. cbn [fold_left].
    unfold wait. rewrite calls_set_event by reflexivity.
    rewrite (calls_keep_error _ _ Hafter). reflexivity.
  - intros before v -> Hbefore. rewrite fold_left_app. cbn [fold_left apply_call].
    unfold wait, set. cbn. rewrite (calls_keep_error _ _ Hbefore). reflexivity.
Qed.

End ResultFacts.

Lemma result_wait_after_calls_witness :
  UtilsResult.wait
    (fold_left UtilsResult.apply_call
       [UtilsResult.CallFail RuntimeError; UtilsResult.CallSet (Some 1);
        UtilsResult.CallFail OSError; UtilsResult.CallSet (Some 2)]
       UtilsResult.__init__)
    = Some (Raise OSError) /\
  UtilsResult.wait
    (fold_left UtilsResult.apply_call
       [UtilsResult.CallSet (Some 1); UtilsResult.CallSet (Some 2)]
       UtilsResult.__init__)
    = Some (Return (Some 2)).
Proof.
  split.
  - apply (proj1 (proj2 (result_wait_after_calls _))
             [UtilsResult.CallFail RuntimeError; UtilsResult.CallSet (Some 1)]
             OSError [UtilsResult.CallSet (Some 2)]); reflexivity.
  - apply (proj2 (proj2 (result_wait_after_calls _))
             [UtilsResult.CallSet (Some 1)] (Some 2)); reflexivity.
Defined.

(** ** More on the connection *)
Section ConnectionLife.
Import Types Utils UtilsResult Connection ConnectionTasks.

Lemma closed_step c ev :
  _error c = None -> _outbox_sender c = false -> _requests c = ∅ -> outbox c = [] ->
  is_attach ev = false -> is_set_error ev = false ->
  step c ev = c.
Proof.
  intros He Hs Hr Ho Hattach Hseterr.
  assert (_check_not_closed c = Raise ClosedResourceError) as Hcheck
    by (unfold _check_not_closed; now rewrite He, Hs).
  destruct ev; try discriminate; cbn [step].
  - unfold send. now rewrite Hcheck.
  - unfold send_finish, set_requests. rewrite Hr, delete_empty, <- Hr.
    destruct c; reflexivity.
  - unfold notify. now rewrite Hcheck.
  - unfold receive, set_outbox. rewrite Ho. cbn [tail]. rewrite <- Ho.
    destruct c; reflexivity.
Qed.

(** X16: a connection that was never attached is closed.  On a connection
    as [__init__] made it, whatever was tried on it short of attaching it or
    recording an error, [send] and [notify] raise [ClosedResourceError],
    allocate no request number and hand nothing to the outbox. *)
Theorem never_attached_is_closed (num : Z) (c0 : Connection) (evs : list event)
    (data : list byte) (fds : option (list Fd)) :
  Connection.__init__ num = Return c0 ->
  forallb (fun ev => negb (is_attach ev) && negb (is_set_error ev)) evs = true ->
  run c0 evs = c0 /\
  send c0 data fds = Some (c0, Raise ClosedResourceError) /\
  notify c0 data fds = (c0, Raise ClosedResourceError).
Proof.
  intros Hinit Hevs.
  assert (_error c0 = None /\ _outbox_sender c0 = false /\ _requests c0 = ∅
          /\ outbox c0 = []) as (He & Hs & Hr & Ho).
  { unfold Connection.__init__, Utils.__init__ in Hinit. cbn in Hinit.
    injection Hinit as <-. auto. }
  split; [|split].
  - clear Hinit. induction evs as [|ev evs IH]; [reflexivity|].
    cbn [forallb] in Hevs. apply andb_prop in Hevs as [Hev Hevs].
    apply andb_prop in Hev as [Ha Hse]. apply negb_true_iff in Ha, Hse.
    unfold run. cbn [fold_left]. rewrite (closed_step c0 ev) by assumption.
    apply (IH Hevs).
  - unfold send, _check_not_closed. now rewrite He, Hs.
  - unfold notify, _check_not_closed. now rewrite He, Hs.
Qed.

Lemma never_attached_is_closed_witness :
  let c0 := mkConnection 7 ObjNone None None false ∅
              (mkWrappedCounter 1 INT32_MAX 1) false [] 0 in
  run c0 [EvSend [x01] None; EvNotify [] None; EvSendFinish 3; EvReceive] = c0 /\
  send c0 [x01] None = Some (c0, Raise ClosedResourceError) /\
  notify c0 [x01] None = (c0, Raise ClosedResourceError).
Proof.
  intros c0.
  apply (never_attached_is_closed 7 c0
           [EvSend [x01] None; EvNotify [] None; EvSendFinish 3; EvReceive]);
    reflexivity.
Defined.

Lemma step_keeps_attached c ev :
  _scope c = true ->
  _scope (step c ev) = true /\ address (step c ev) = address c.
Proof.
  intros Hscope. destruct ev; cbn [step].
  - unfold _set_error. destruct (_error c); auto.
  - unfold send. destruct (_check_not_closed c); [|auto].
    cbn. destruct (next_unused _ _) as [[n k]|]; auto.
  - auto.
  - unfold notify. destruct (_check_not_closed c); auto.
  - unfold attach. rewrite Hscope. auto.
  - auto.
Qed.

(** X17: a connection is attached once.  After an [attach] that went
    through, and whatever happened on the connection since, its [address] is
    the one given to that [attach], and another [attach] raises
    [RuntimeError] and changes nothing. *)
Theorem attach_only_once (c c1 : Connection) (socket socket' : SocketType)
    (address' address'' : pyobject) (evs : list event) :
  attach c socket address' = (c1, Return tt) ->
  address (run c1 evs) = address' /\
  attach (run c1 evs) socket' address'' = (run c1 evs, Raise RuntimeError).
Proof.
  intros Hattach.
  assert (_scope c1 = true /\ address c1 = address') as [Hscope Haddr].
  { unfold attach in Hattach. destruct (_scope c); [discriminate|].
    injection Hattach as <-. auto. }
  assert (_scope (run c1 evs) = true /\ address (run c1 evs) = address')
    as [Hscope' Haddr'].
  { clear Hattach. revert c1 Hscope Haddr.
    induction evs as [|ev evs IH]; intros c1 Hscope Haddr; [auto|].
    destruct (step_keeps_attached c1 ev Hscope) as [Hs Ha].
    apply (IH (step c1 ev) Hs). congruence. }
  split; [exact Haddr'|]. unfold attach. now rewrite Hscope'.
Qed.

Lemma attach_only_once_witness :
  let c := mkConnection 0 ObjNone None None false ∅
             (mkWrappedCounter 1 INT32_MAX 1) false [] 0 in
  let c1 := mkConnection 0 (ObjBytes [x00]) (Some 3%nat) None true ∅
              (mkWrappedCounter 1 INT32_MAX 1) true [] 0 in
  address (run c1 [EvSend [] None; EvAttach 4%nat ObjNone]) = ObjBytes [x00] /\
  attach (run c1 [EvSend [] None; EvAttach 4%nat ObjNone]) 5%nat ObjNone
    = (run c1 [EvSend [] None; EvAttach 4%nat ObjNone], Raise RuntimeError).
Proof.
  intros c c1.
  apply (attach_only_once c c1 3%nat 5%nat (ObjBytes [x00]) ObjNone
           [EvSend [] None; EvAttach 4%nat ObjNone]).
  reflexivity.
Defined.







End ConnectionLife.

(** ** The writer task and the shutdown *)
Section WriterAndShutdown.
Import Types Utils UtilsResult Connection ConnectionTasks.

Lemma cell_of_fail cells r r' e :
  cell_of (cell_fail cells r e) r' =
    if decide (r = r') then fail (cell_of cells r) e else cell_of cells r'.
Proof.
  unfold cell_fail, cell_of. rewrite lookup_insert.
  destruct (decide (r = r')); reflexivity.
Qed.

(** X19: [_shutdown].  Afterwards the connection's error is the one it had,
    or [ClosedResourceError] if it had none, and [send] and [notify] raise
    it.  No waiter is woken: no [Result] cell is failed or set, and the
    requests map is as it was.  On a connection that was never attached, or
    whose outbox is empty, [_shutdown] returns and the outbox is as it was.
    On an attached connection with an entry in the outbox it raises
    [TypeError]: the oldest entry has been taken out of the outbox, its
    cell has not been failed, and the entries behind it stay where they
    are. *)
Theorem shutdown_fails_no_waiter (w : World) (data : list byte)
    (fds : option (list Fd)) :
  let error := default ClosedResourceError (_error (conn w)) in
  let w' := fst (_shutdown w) in
  _error (conn w') = Some error /\
  send (conn w') data fds = Some (conn w', Raise error) /\
  notify (conn w') data fds = (conn w', Raise error) /\
  _requests (conn w') = _requests (conn w) /\
  cells w' = cells w /\
  (_outbox_sender (conn w) = false \/ outbox (conn w) = [] ->
   snd (_shutdown w) = Return tt /\ outbox (conn w') = outbox (conn w)) /\
  (forall entry rest,
     _outbox_sender (conn w) = true -> outbox (conn w) = entry :: rest ->
     snd (_shutdown w) = Raise TypeError /\ outbox (conn w') = rest).
Proof.
  intros error w'. subst error w'. unfold _shutdown, _set_error.
  destruct w as [c cells0]. cbn [conn cells].
  destruct (_error c) as [e|] eqn:He; cbn [default];
    destruct (_outbox_sender c) eqn:Hs; cbn [set_error _outbox_sender];
    rewrite ?Hs;
    destruct (outbox c) as [|entry0 rest0] eqn:Hbox;
    cbn [set_error outbox]; rewrite ?Hbox;
    cbn [fst snd conn cells receive set_outbox set_error _error _requests outbox
         _outbox_sender tail];
    rewrite ?He, ?Hbox;
    (split; [reflexivity|]);
    (split; [unfold send, _check_not_closed; cbn; rewrite ?He; reflexivity|]);
    (split; [unfold notify, _check_not_closed; cbn; rewrite ?He; reflexivity|]);
    (split; [reflexivity|]); (split; [reflexivity|]);
    (split; [intros [H|H]; try discriminate; auto
            |intros entry rest H1 H2; try discriminate;
             injection H2 as <- <-; auto]).
Qed.

Lemma shutdown_fails_no_waiter_witness :
  let c := mkConnection 0 ObjNone (Some 3%nat) None true {[1 := 0%nat]}
             (mkWrappedCounter 1 INT32_MAX 2) true
             [(mkMessage 0 4 [] [], 1%nat, false);
              (mkMessage 2 1 [] [], 2%nat, true)] 3 in
  let w := mkWorld c ∅ in
  snd (_shutdown w) = Raise TypeError /\
  outbox (conn (fst (_shutdown w))) = [(mkMessage 2 1 [] [], 2%nat, true)].
Proof.
  intros c w.
  destruct (shutdown_fails_no_waiter w [] None) as (_ & _ & _ & _ & _ & _ & H).
  apply (H (mkMessage 0 4 [] [], 1%nat, false) [(mkMessage 2 1 [] [], 2%nat, true)]);
    reflexivity.
Defined.

(** X20: the writer and a failing write.  When the write of the oldest
    entry of the outbox raises, or is cancelled, the writer stops and fails
    the entry's cell with the connection's sticky error: the error recorded
    before if there is one, else the write's own error
    ([ClosedResourceError] for a cancellation).  When the write goes
    through, the writer goes on, records no error, sets the cell of an
    entry that awaits no response and leaves the cell of a request alone. *)
Theorem writer_wakes_with_sticky_error (w : World) (msg : Message)
    (r : ResultRef) (needs_response : bool)
    (rest : list (Message * ResultRef * bool)) :
  outbox (conn w) = (msg, r, needs_response) :: rest ->
  (forall e,
     let '(w', goes_on) := write_one w (WriteRaises e) in
     let error := default e (_error (conn w)) in
     goes_on = false /\ outbox (conn w') = rest /\
     _error (conn w') = Some error /\
     wait (cell_of (cells w') r) = Some (Raise error)) /\
  (let '(w', goes_on) := write_one w WriteCancelled in
   let error := default ClosedResourceError (_error (conn w)) in
   goes_on = false /\ outbox (conn w') = rest /\
   _error (conn w') = Some error /\
   wait (cell_of (cells w') r) = Some (Raise error)) /\
  (let '(w', goes_on) := write_one w Written in
   goes_on = true /\ outbox (conn w') = rest /\
   _error (conn w') = _error (conn w) /\
   cells w' = if needs_response then cells w else cell_set (cells w) r None).
Proof.
  intros Hbox. destruct w as [c cells0]. cbn [conn cells] in *.
  unfold write_one. cbn [conn cells]. rewrite Hbox.
  unfold _set_error, receive. cbn [set_outbox _error].
  split; [|split].
  - intros e. destruct (_error c) as [e0|] eqn:He; cbn; rewrite ?Hbox, ?He;
      (split; [reflexivity|]); (split; [reflexivity|]);
      (split; [reflexivity|]);
      rewrite cell_of_fail; (destruct (decide (r = r)); [reflexivity|congruence]).
  - destruct (_error c) as [e0|] eqn:He; cbn; rewrite ?Hbox, ?He;
      (split; [reflexivity|]); (split; [reflexivity|]);
      (split; [reflexivity|]);
      rewrite cell_of_fail; (destruct (decide (r = r)); [reflexivity|congruence]).
  - destruct needs_response; cbn; rewrite Hbox; auto.
Qed.

Lemma writer_wakes_with_sticky_error_witness :
  let c := mkConnection 0 ObjNone (Some 3%nat) (Some RuntimeError) true ∅
             (mkWrappedCounter 1 INT32_MAX 2) true
             [(mkMessage 1 1 [] [], 0%nat, true)] 1 in
  let '(w', goes_on) := write_one (mkWorld c ∅) (WriteRaises OSError) in
  let error := default OSError (_error c) in
  goes_on = false /\ outbox (conn w') = [] /\
  _error (conn w') = Some error /\
  wait (cell_of (cells w') 0%nat) = Some (Raise error).
Proof.
  intros c.
  apply (proj1 (writer_wakes_with_sticky_error (mkWorld c ∅)
                  (mkMessage 1 1 [] []) 0%nat true [] eq_refl) OSError).
Defined.

End WriterAndShutdown.

(** ** The numbers of the accepted connections *)
Section ServerNumbering.
Import Types Utils Connection Server ServerRun.

Lemma server_step_counter_ok s ev :
  start (_counter s) = 1 /\ limit (_counter s) = INT32_MAX /\ counter_ok (_counter s) ->
  start (_counter (step s ev)) = 1 /\ limit (_counter (step s ev)) = INT32_MAX
  /\ counter_ok (_counter (step s ev)).
Proof.
  intros (Hs & Hl & Hok). destruct ev as [socket address'|k]; cbn [step].
  - unfold _accept.
    destruct (next_unused (connections s) (_counter s)) as [[n k]|] eqn:Hnext;
      [|auto].
    apply next_unused_sound in Hnext; [|exact Hok].
    destruct Hnext as (j & _ & _ & _ & _ & Hok' & Hs' & Hl').
    cbn. repeat split; try congruence; apply Hok'.
  - cbn. auto.
Qed.

(** X21: connection numbers.  On a listener made by [__init__], whatever
    clients were accepted and whatever connections ended since: the number
    [_accept] gives a new connection lies in [[1, 2^31-1]] and belongs to no
    live connection; the connection is entered under that number, carries
    it as its [num] and holds the address [_accept] was given, the other
    connections staying as they were; [_accept] does find a number whenever
    one of the range is free; and when the task ends the entry is removed. *)
Theorem connection_numbering (s0 : Server.Server) (evs : list event)
    (socket : SocketType) (address' : pyobject) :
  Server.__init__ = Return s0 ->
  let s := run s0 evs in
  (forall s' n, _accept s socket address' = Some (s', Return n) ->
     1 <= n <= 2 ^ 31 - 1 /\
     connections s !! n = None /\
     (exists conn, connections s' !! n = Some conn /\
        Connection.num conn = n /\ Connection.address conn = address') /\
     (forall m, m <> n -> connections s' !! m = connections s !! m) /\
     connections (_accept_finish s' n) = connections s) /\
  ((exists m, 1 <= m <= 2 ^ 31 - 1 /\ connections s !! m = None) ->
   exists s' n, _accept s socket address' = Some (s', Return n)).
Proof.
  intros Hinit s.
  assert (start (_counter s) = 1 /\ limit (_counter s) = INT32_MAX
          /\ counter_ok (_counter s)) as (Hs & Hl & Hok).
  { subst s. assert (start (_counter s0) = 1 /\ limit (_counter s0) = INT32_MAX
                     /\ counter_ok (_counter s0)) as H0.
    { unfold Server.__init__, Utils.__init__ in Hinit. cbn in Hinit.
      injection Hinit as <-. unfold counter_ok, INT32_MAX. cbn. lia. }
    clear Hinit. revert s0 H0. induction evs as [|ev evs IH]; intros s0 H0;
      [exact H0|].
    apply (IH (step s0 ev)), server_step_counter_ok, H0. }
  split.
  - intros s' n Haccept. unfold _accept in Haccept.
    destruct (next_unused (connections s) (_counter s)) as [[n0 k]|] eqn:Hnext;
      [|discriminate].
    apply next_unused_sound in Hnext; [|exact Hok].
    destruct Hnext as (j & _ & Hn & Hfree & _).
    pose proof (upcoming_range (_counter s) j Hok) as Hrange.
    rewrite <- Hn, Hs, Hl in Hrange. unfold INT32_MAX in Hrange.
    cbn in Haccept. injection Haccept as <- <-. cbn.
    split; [lia|]. split; [exact Hfree|]. split; [|split].
    + eexists. rewrite lookup_insert_eq. split; [reflexivity|]. cbn. auto.
    + intros m Hne. apply lookup_insert_ne. congruence.
    + rewrite delete_insert_eq. apply delete_id, Hfree.
  - intros (m & Hm & Hfree). unfold _accept.
    destruct (next_unused_total (connections s) (_counter s) m Hok) as (n & k & ->);
      [rewrite Hs, Hl; unfold INT32_MAX; lia|exact Hfree|].
    cbn. eauto.
Qed.

Lemma connection_numbering_witness :
  let s0 := mkServer ObjNone ∅ (mkWrappedCounter 1 INT32_MAX 1) in
  let s := run s0 [EvAccept 3%nat ObjBytesType; EvAccept 4%nat ObjBytesType;
                   EvFinish 1] in
  exists s' n,
    _accept s 5%nat (ObjBytes [x00]) = Some (s', Return n) /\
    1 <= n <= 2 ^ 31 - 1 /\ connections s !! n = None.
Proof.
  intros s0 s.
  destruct (connection_numbering s0
              [EvAccept 3%nat ObjBytesType; EvAccept 4%nat ObjBytesType; EvFinish 1]
              5%nat (ObjBytes [x00]) eq_refl) as (Hsound & Hlive).
  destruct Hlive as (s' & n & Haccept).
  - exists 1. split; [lia|reflexivity].
  - exists s', n. split; [exact Haccept|].
    destruct (Hsound s' n Haccept) as (Hrange & Hfree & _). auto.
Defined.

End ServerNumbering.
